(** * secp256k1: a shallow embedding of the curve and ECDSA layers

    The development follows [curve.go] and [signature.go].  Bytes are
    integers in [0, 256); a byte slice is a [list Z]; Go's unsigned
    conversions ([byte(x)], [uint8(x)]) are written out as [x mod 256].
    [big.Int] values are unbounded integers, hence [Z]. *)

From Stdlib Require Import ZArith List Lia Bool.
Import ListNotations.
Open Scope Z_scope.

(** ** Byte slices *)

Definition is_byte (b : Z) : Prop := 0 <= b < 256.
Definition is_bytes (l : list Z) : Prop := Forall is_byte l.

Definition len {A} (l : list A) : Z := Z.of_nat (length l).

(** [big.Int.SetBytes]: the unsigned big-endian value of a slice. *)
Definition be_val (l : list Z) : Z :=
  fold_left (fun acc b => acc * 256 + b) l 0.

(** The fixed-width big-endian encoding of the low [w] bytes of [v]. *)
Fixpoint be_fixed (w : nat) (v : Z) : list Z :=
  match w with
  | O => []
  | S w' => be_fixed w' (v / 256) ++ [v mod 256]
  end.

(** [for len(k) > 0 && k[0] == 0x00 { k = k[1:] }] *)
Fixpoint strip_zeros (k : list Z) : list Z :=
  match k with
  | b :: t => if b =? 0 then strip_zeros t else k
  | [] => []
  end.

(** [big.Int.Bytes]: the minimal big-endian encoding of the absolute
    value (the empty slice for zero). *)
Definition big_Bytes (v : Z) : list Z :=
  strip_zeros (be_fixed (S (Z.to_nat (Z.log2 (Z.abs v) / 8))) (Z.abs v)).

(** [big.Int.Sign] *)
Definition big_Sign (v : Z) : Z := Z.sgn v.

(** Go slice expression [s[lo:hi]] on a slice whose capacity is its
    length, for bounds already known to be in range. *)
Definition slice {A} (s : list A) (lo hi : Z) : list A :=
  firstn (Z.to_nat (hi - lo)) (skipn (Z.to_nat lo) s).

(** ** Outcomes of fallible code

    A Go function that returns [(value, error)] and may hit a run-time
    panic (index out of range) has three outcomes. *)

Inductive ErrorKind : Set :=
| ErrSigTooShort | ErrSigTooLong | ErrSigInvalidSeqID | ErrSigInvalidDataLen
| ErrSigMissingSTypeID | ErrSigMissingSLen | ErrSigInvalidSLen
| ErrSigInvalidRIntID | ErrSigZeroRLen | ErrSigNegativeR
| ErrSigTooMuchRPadding | ErrSigRIsZero | ErrSigRTooBig
| ErrSigInvalidSIntID | ErrSigZeroSLen | ErrSigNegativeS
| ErrSigTooMuchSPadding | ErrSigSIsZero | ErrSigSTooBig
| ErrSigInvalidLen | ErrSigInvalidRecoveryCode | ErrSigOverflowsPrime
| ErrPointNotOnCurve.

Inductive result (A : Type) : Type :=
| Ok (a : A)
| Err (e : ErrorKind)
| Panic.
Arguments Ok {A} a.
Arguments Err {A} e.
Arguments Panic {A}.

Definition bind {A B} (r : result A) (f : A -> result B) : result B :=
  match r with
  | Ok a => f a
  | Err e => Err e
  | Panic => Panic
  end.

Notation "x <- r ;; k" := (bind r (fun x => k))
  (at level 61, r at next level, right associativity).

(** [s[i]]: panics when [i] is out of range. *)
Definition index (s : list Z) (i : Z) : result Z :=
  if i <? 0 then Panic
  else match nth_error s (Z.to_nat i) with
       | Some b => Ok b
       | None => Panic
       end.

(** [if c { return nil, signatureError(kind, ...) }] *)
Definition failif (c : bool) (kind : ErrorKind) : result unit :=
  if c then Err kind else Ok tt.

(** ** Curve parameters ([ellipticadaptor.go], [curve.go]) *)

Definition fieldPrime : Z :=
  0xfffffffffffffffffffffffffffffffffffffffffffffffffffffffefffffc2f.
Definition curveN : Z :=
  0xfffffffffffffffffffffffffffffffebaaedce6af48a03bbfd25e8cd0364141.
Definition curveGx : Z :=
  0x79be667ef9dcbbac55a06295ce870b07029bfcdb2dce28d959f2815b16f81798.
Definition curveGy : Z :=
  0x483ada7726a3c4655da4fbfc0e1108a8fd17b448a68554199c47d08ffb10d4b8.

Definition endomorphismLambda : Z :=
  0x5363ad4cc05c30e0a5261c028812645a122e22ea20816678df02967c1b23bd72.
Definition endomorphismBetaValue : Z :=
  0x7ae96a2b657c07106e64479eac3434e99cf0497512f58995c1396c28719501ee.
Definition endomorphismA1 : Z := 0x3086d221a7d46bcde86c90e49284eb15.
Definition endomorphismB1 : Z := - 0xe4437ed6010e88286f547fa90abfe4c3.
Definition endomorphismA2 : Z := 0x114ca50f7a8e2f3f657c1108d9d44cfd8.
Definition endomorphismB2 : Z := 0x3086d221a7d46bcde86c90e49284eb15.

(** Modular exponentiation by repeated squaring, used by the models of
    the two inversions and of the square root. *)
Fixpoint pow_mod_pos (a : Z) (e : positive) (m : Z) : Z :=
  match e with
  | xH => a mod m
  | xO e' => let h := pow_mod_pos a e' m in (h * h) mod m
  | xI e' => let h := pow_mod_pos a e' m in (((h * h) mod m) * a) mod m
  end.

Definition pow_mod (a e m : Z) : Z :=
  match e with
  | Zpos e' => pow_mod_pos a e' m
  | _ => 1 mod m
  end.

(** ** ModNScalar *)

Module ModNScalar.

(** Modelled from the spec: the type [ModNScalar] and its methods
    ([modnscalar.go] is not among the sources).  The spec describes
    eight 32-bit limbs that are "always reduced mod n after every
    public operation"; the model keeps the integer the limbs encode,
    which is in [0, n).  [SetByteSlice] "accepts any length, truncates
    or zero-extends to 32 bytes (big-endian input), and signals
    overflow when the value was >= n" ("longer inputs truncate to the
    low 32 bytes"); [IsOverHalfOrder] "compares against floor(n/2)";
    the byte encoding is "32-byte big-endian". *)
Definition t := Z.

Definition wf (s : t) : Prop := 0 <= s < curveN.

Definition low32 (b : list Z) : list Z :=
  skipn (length b - 32) b.

Definition SetByteSlice (b : list Z) : t * bool :=
  let v := be_val (low32 b) in
  (v mod curveN, curveN <=? v).

(** [SetBytes] takes a 32-byte array and reports overflow as 0 or 1. *)
Definition SetBytes (b : list Z) : t * Z :=
  let '(s, o) := SetByteSlice b in (s, if o then 1 else 0).

Definition SetInt (v : Z) : t := v mod curveN.

Definition PutBytesUnchecked (s : t) : list Z := be_fixed 32 s.
Definition Bytes (s : t) : list Z := be_fixed 32 s.

Definition IsZero (s : t) : bool := s =? 0.
Definition Equals (a b : t) : bool := a =? b.
Definition IsOverHalfOrder (s : t) : bool := curveN / 2 <? s.
Definition Negate (s : t) : t := (- s) mod curveN.
Definition Add (a b : t) : t := (a + b) mod curveN.
Definition Mul2 (a b : t) : t := (a * b) mod curveN.
Definition Mul (a b : t) : t := Mul2 a b.

(** The inverse modulo the group order, zero for zero. *)
Definition InverseValNonConst (s : t) : t :=
  pow_mod s (curveN - 2) curveN.

End ModNScalar.

(** ** Signatures ([signature.go]) *)

Definition asn1SequenceID : Z := 0x30.
Definition asn1IntegerID : Z := 0x02.

Record Signature : Type := mkSignature {
  sig_r : ModNScalar.t;
  sig_s : ModNScalar.t;
  sig_v : Z  (* recovery code, or 0xff *)
}.

Definition NewSignature (r s : ModNScalar.t) : Signature :=
  mkSignature r s 0xff.

Definition NewSignatureWithRecoveryCode (r s : ModNScalar.t) (v : Z)
  : Signature := mkSignature r s v.

(** [for len(c) > 1 && c[0] == 0x00 && c[1]&0x80 == 0 { c = c[1:] }] *)
Fixpoint canonTrim (c : list Z) : list Z :=
  match c with
  | b0 :: ((b1 :: _) as t) =>
      if (b0 =? 0) && (Z.land b1 0x80 =? 0) then canonTrim t else c
  | _ => c
  end.

Definition Serialize (sig : Signature) : list Z :=
  let sigS := sig_s sig in
  let sigS := if ModNScalar.IsOverHalfOrder sigS
              then ModNScalar.Negate sigS else sigS in
  let rBuf := 0 :: ModNScalar.PutBytesUnchecked (sig_r sig) in
  let sBuf := 0 :: ModNScalar.PutBytesUnchecked sigS in
  let canonR := canonTrim rBuf in
  let canonS := canonTrim sBuf in
  let totalLen := 6 + len canonR + len canonS in
  [asn1SequenceID; (totalLen - 2) mod 256;
   asn1IntegerID; len canonR mod 256] ++ canonR ++
  [asn1IntegerID; len canonS mod 256] ++ canonS.

Definition compactSigSize : Z := 65.
Definition compactSigMagicOffset : Z := 27.
Definition compactSigCompPubKey : Z := 4.
Definition pubKeyRecoveryCodeOddnessBit : Z := 1.
Definition pubKeyRecoveryCodeOverflowBit : Z := 2.

(** [ExportCompact]: [sigS] is computed and negated when over the half
    order, but the buffer is filled from [sig.s]. *)
Definition ExportCompact (sig : Signature) (recoveryCodeFirst : bool)
    (recoveryCodeOffset : Z) : list Z :=
  let v := sig_v sig in
  let sigS := sig_s sig in
  let '(sigS, v) :=
    if ModNScalar.IsOverHalfOrder sigS
    then (ModNScalar.Negate sigS, Z.lxor v 0x01)
    else (sigS, v) in
  if recoveryCodeFirst
  then ((v + recoveryCodeOffset) mod 256)
         :: ModNScalar.PutBytesUnchecked (sig_r sig)
         ++ ModNScalar.PutBytesUnchecked (sig_s sig)
  else ModNScalar.PutBytesUnchecked (sig_r sig)
         ++ ModNScalar.PutBytesUnchecked (sig_s sig)
         ++ [(v + recoveryCodeOffset) mod 256].

Definition minSigLen : Z := 8.
Definition maxSigLen : Z := 72.

Definition ParseDERSignature (sig : list Z) : result Signature :=
  let sequenceOffset := 0 in
  let dataLenOffset := 1 in
  let rTypeOffset := 2 in
  let rLenOffset := 3 in
  let rOffset := 4 in
  let sigLen := len sig in
  _ <- failif (sigLen <? minSigLen) ErrSigTooShort ;;
  _ <- failif (sigLen >? maxSigLen) ErrSigTooLong ;;
  b <- index sig sequenceOffset ;;
  _ <- failif (negb (b =? asn1SequenceID)) ErrSigInvalidSeqID ;;
  b <- index sig dataLenOffset ;;
  _ <- failif (negb (b =? sigLen - 2)) ErrSigInvalidDataLen ;;
  rLen <- index sig rLenOffset ;;
  let sTypeOffset := rOffset + rLen in
  let sLenOffset := sTypeOffset + 1 in
  _ <- failif (sTypeOffset >=? sigLen) ErrSigMissingSTypeID ;;
  _ <- failif (sLenOffset >=? sigLen) ErrSigMissingSLen ;;
  let sOffset := sLenOffset + 1 in
  sLen <- index sig sLenOffset ;;
  _ <- failif (negb (sOffset + sLen =? sigLen)) ErrSigInvalidSLen ;;
  b <- index sig rTypeOffset ;;
  _ <- failif (negb (b =? asn1IntegerID)) ErrSigInvalidRIntID ;;
  _ <- failif (rLen =? 0) ErrSigZeroRLen ;;
  b <- index sig rOffset ;;
  _ <- failif (negb (Z.land b 0x80 =? 0)) ErrSigNegativeR ;;
  pad <- (if rLen >? 1 then
            b0 <- index sig rOffset ;;
            if b0 =? 0 then
              b1 <- index sig (rOffset + 1) ;;
              Ok (Z.land b1 0x80 =? 0)
            else Ok false
          else Ok false) ;;
  _ <- failif pad ErrSigTooMuchRPadding ;;
  b <- index sig sTypeOffset ;;
  _ <- failif (negb (b =? asn1IntegerID)) ErrSigInvalidSIntID ;;
  _ <- failif (sLen =? 0) ErrSigZeroSLen ;;
  b <- index sig sOffset ;;
  _ <- failif (negb (Z.land b 0x80 =? 0)) ErrSigNegativeS ;;
  pad <- (if sLen >? 1 then
            b0 <- index sig sOffset ;;
            if b0 =? 0 then
              b1 <- index sig (sOffset + 1) ;;
              Ok (Z.land b1 0x80 =? 0)
            else Ok false
          else Ok false) ;;
  _ <- failif pad ErrSigTooMuchSPadding ;;
  let rBytes := strip_zeros (slice sig rOffset (rOffset + rLen)) in
  _ <- failif (len rBytes >? 32) ErrSigRTooBig ;;
  let '(r, overflow) := ModNScalar.SetByteSlice rBytes in
  _ <- failif overflow ErrSigRTooBig ;;
  _ <- failif (ModNScalar.IsZero r) ErrSigRIsZero ;;
  let sBytes := strip_zeros (slice sig sOffset (sOffset + sLen)) in
  _ <- failif (len sBytes >? 32) ErrSigSTooBig ;;
  let '(s, overflow) := ModNScalar.SetByteSlice sBytes in
  _ <- failif overflow ErrSigSTooBig ;;
  _ <- failif (ModNScalar.IsZero s) ErrSigSIsZero ;;
  Ok (NewSignature r s).

(** *** The DER layout, as the specification words it

    [0x30 total_len 0x02 rlen R 0x02 slen S]: total length in [8, 72],
    outer length byte equal to the total minus 2, [R] and [S]
    non-empty, non-negative, minimally encoded and in [1, n-1]. *)

Definition DEREncoding (rb sb : list Z) : list Z :=
  [asn1SequenceID; 4 + len rb + len sb; asn1IntegerID; len rb] ++ rb ++
  [asn1IntegerID; len sb] ++ sb.

(** First byte with the high bit set. *)
Definition DERNegative (l : list Z) : bool :=
  match l with
  | b0 :: _ => negb (Z.land b0 0x80 =? 0)
  | [] => false
  end.

(** A superfluous leading zero byte. *)
Definition DERPadded (l : list Z) : bool :=
  match l with
  | b0 :: b1 :: _ => (b0 =? 0) && (Z.land b1 0x80 =? 0)
  | _ => false
  end.

Definition DERWellFormed (sig : list Z) : Prop :=
  exists rb sb,
    sig = DEREncoding rb sb /\
    minSigLen <= len sig <= maxSigLen /\
    rb <> [] /\ DERNegative rb = false /\ DERPadded rb = false /\
    sb <> [] /\ DERNegative sb = false /\ DERPadded sb = false /\
    1 <= be_val rb < curveN /\ 1 <= be_val sb < curveN.

(** [s[i]] for an index known to be in range. *)
Definition byteAt (s : list Z) (i : Z) : Z := nth (Z.to_nat i) s 0.

(** The checks of the specification, each with its error kind, on the
    bytes and lengths of the layout; the first failing check decides,
    [None] when no check fails. *)
Definition DERFirstViolation (sig : list Z) : option ErrorKind :=
  let n := len sig in
  let rLen := byteAt sig 3 in
  let sLen := byteAt sig (5 + rLen) in
  let rb := slice sig 4 (4 + rLen) in
  let sb := slice sig (6 + rLen) (6 + rLen + sLen) in
  if n <? 8 then Some ErrSigTooShort
  else if n >? 72 then Some ErrSigTooLong
  else if negb (byteAt sig 0 =? 0x30) then Some ErrSigInvalidSeqID
  else if negb (byteAt sig 1 =? n - 2) then Some ErrSigInvalidDataLen
  else if 4 + rLen >=? n then Some ErrSigMissingSTypeID
  else if 5 + rLen >=? n then Some ErrSigMissingSLen
  else if negb (6 + rLen + sLen =? n) then Some ErrSigInvalidSLen
  else if negb (byteAt sig 2 =? 0x02) then Some ErrSigInvalidRIntID
  else if rLen =? 0 then Some ErrSigZeroRLen
  else if DERNegative rb then Some ErrSigNegativeR
  else if DERPadded rb then Some ErrSigTooMuchRPadding
  else if negb (byteAt sig (4 + rLen) =? 0x02) then Some ErrSigInvalidSIntID
  else if sLen =? 0 then Some ErrSigZeroSLen
  else if DERNegative sb then Some ErrSigNegativeS
  else if DERPadded sb then Some ErrSigTooMuchSPadding
  else if curveN <=? be_val rb then Some ErrSigRTooBig
  else if be_val rb =? 0 then Some ErrSigRIsZero
  else if curveN <=? be_val sb then Some ErrSigSTooBig
  else if be_val sb =? 0 then Some ErrSigSIsZero
  else None.

(** The integer fields of a signature in the DER layout. *)
Definition DERFieldR (sig : list Z) : list Z :=
  slice sig 4 (4 + byteAt sig 3).
Definition DERFieldS (sig : list Z) : list Z :=
  let rLen := byteAt sig 3 in
  slice sig (6 + rLen) (6 + rLen + byteAt sig (5 + rLen)).

(** The range checks on the two integers, in the parser's order. *)
Definition DERRangeCheck (rb sb : list Z) : option ErrorKind :=
  if curveN <=? be_val rb then Some ErrSigRTooBig
  else if be_val rb =? 0 then Some ErrSigRIsZero
  else if curveN <=? be_val sb then Some ErrSigSTooBig
  else if be_val sb =? 0 then Some ErrSigSIsZero
  else None.

(** [IsEqual]: same scalar values for R and S. *)
Definition IsEqual (sig otherSig : Signature) : bool :=
  ModNScalar.Equals (sig_r sig) (sig_r otherSig) &&
  ModNScalar.Equals (sig_s sig) (sig_s otherSig).

(** A decidable form of [is_bytes]. *)
Definition is_bytesb (l : list Z) : bool :=
  forallb (fun b => (0 <=? b) && (b <? 256)) l.

(** ** Scalar decomposition and NAF ([curve.go]) *)

(** [splitK]: [big.Int.Div] is Euclidean division, which for the
    positive divisor [N] is the floor division [Z.div]; [Bytes] drops
    the sign, which is returned separately. *)
Definition splitK (k : list Z) : list Z * list Z * Z * Z :=
  let bigIntK := be_val k in
  let c1 := endomorphismB2 * bigIntK in
  let c1 := c1 / curveN in
  let c2 := endomorphismB1 * bigIntK in
  let c2 := c2 / curveN in
  let tmp1 := c1 * endomorphismA1 in
  let tmp2 := c2 * endomorphismA2 in
  let k1 := bigIntK - tmp1 in
  let k1 := k1 + tmp2 in
  let tmp1 := c1 * endomorphismB1 in
  let tmp2 := c2 * endomorphismB2 in
  let k2 := tmp2 - tmp1 in
  (big_Bytes k1, big_Bytes k2, big_Sign k1, big_Sign k2).

Record nafScalar : Type := mkNafScalar {
  naf_pos : list Z;   (* [33]byte *)
  naf_start : Z;      (* uint8 *)
  naf_end : Z;        (* uint8 *)
  naf_neg : list Z    (* [33]byte *)
}.

Definition nafScalar_Pos (s : nafScalar) : list Z :=
  slice (naf_pos s) (naf_start s) (naf_end s).

Definition nafScalar_Neg (s : nafScalar) : list Z :=
  slice (naf_neg s) (naf_start s) (naf_end s).

Fixpoint upd (a : list Z) (i : nat) (v : Z) : list Z :=
  match a, i with
  | [], _ => []
  | _ :: t, O => v :: t
  | x :: t, S i' => x :: upd t i' v
  end.

(** [a[i] = v]: panics when [i] is out of range. *)
Definition store (a : list Z) (i : Z) (v : Z) : result (list Z) :=
  if (0 <=? i) && (i <? len a) then Ok (upd a (Z.to_nat i) v) else Panic.

(** The body of the loop of [naf] for one byte: [kb] is [k[byteNum]],
    [nextWord] is [k[byteNum-1]] (zero for the first byte); the
    arithmetic is on [uint16], the shift of [nextWord] on [uint8].  The
    result is [(pos byte, neg byte, carry)]. *)
Definition nafDigits (kb carry nextWord : Z) : Z * Z * Z :=
  let kc := (kb + carry) mod 65536 in
  let halfK := Z.lor (Z.shiftr kc 1) ((Z.shiftl nextWord 7) mod 256) in
  let threeHalfK := (kc + halfK) mod 65536 in
  let nonZeroResultDigits := Z.lxor threeHalfK halfK in
  ((Z.land threeHalfK nonZeroResultDigits) mod 256,
   (Z.land halfK nonZeroResultDigits) mod 256,
   (Z.shiftr threeHalfK 8) mod 256).

(** [for byteNum := kLen - 1; byteNum >= 0; byteNum--]: [n] is
    [byteNum + 1]. *)
Fixpoint nafLoop (k : list Z) (n : nat) (pos neg : list Z) (carry : Z)
  : result (list Z * list Z * Z) :=
  match n with
  | O => Ok (pos, neg, carry)
  | S byteNum =>
      kb <- index k (Z.of_nat byteNum) ;;
      nextWord <- (if Z.of_nat byteNum >? 0
                   then index k (Z.of_nat byteNum - 1) else Ok 0) ;;
      let '(p, ng, carry') := nafDigits kb carry nextWord in
      pos' <- store pos (Z.of_nat byteNum + 1) p ;;
      neg' <- store neg (Z.of_nat byteNum + 1) ng ;;
      nafLoop k byteNum pos' neg' carry'
  end.

Definition naf (k : list Z) : result nafScalar :=
  let k := strip_zeros k in
  let kLen := length k in
  let zero33 := repeat 0 33 in
  st <- nafLoop k kLen zero33 zero33 0 ;;
  let '(pos, neg, carry) := st in
  pos <- store pos 0 carry ;;
  Ok (mkNafScalar pos ((1 - carry) mod 256) ((len k + 1) mod 256) neg).

(** No two adjacent binary digits of [d] are both set. *)
Definition nonadjacent (d : Z) : Prop :=
  forall i, 0 <= i -> ~ (Z.testbit d i = true /\ Z.testbit d (i + 1) = true).

(** The facts about one step of the [naf] loop that the proofs use,
    as a boolean so that they can be checked on all inputs. *)
Definition nafDigits_ok (kb carry nextWord : Z) : bool :=
  let '(p, ng, c) := nafDigits kb carry nextWord in
  let d := Z.lor p ng in
  (0 <=? p) && (p <? 256) && (0 <=? ng) && (ng <? 256) &&
  ((c =? 0) || (c =? 1)) &&
  (p - ng + 256 * c =? kb + carry) &&
  (Z.land d (Z.shiftr d 1) =? 0) &&
  Bool.eqb (Z.testbit d 0) (Z.odd (kb + carry)) &&
  implb (Z.testbit d 7) (Z.even (nextWord + c)) &&
  implb ((nextWord =? 0) && (c =? 0) && negb (kb =? 0)) (negb (p =? 0)).

Definition byteRange : list Z := map Z.of_nat (seq 0 256).

(** ** FieldVal *)

Module FieldVal.

(** Modelled from the spec: the type [FieldVal] and its methods
    ([field.go] is not among the sources).  The spec describes ten
    26-bit limbs holding "an integer mod p" with deferred reduction;
    the model keeps the integer the limbs encode, which [Add],
    [MulInt] and [Negate] leave unreduced, and which the
    multiplications, [Normalize], [Inverse] and [SquareRootVal]
    reduce modulo the field prime.  [Negate(m)] of a value of
    magnitude at most [m] is [(m+1)p - v]; [Inverse] "uses Fermat's
    little theorem"; [SquareRootVal(v)] is [v^((p+1)/4)], "verified
    by squaring the result"; [IsZero], [IsOne], [IsOdd] and [Equals]
    look at the stored integer and are meant for normalized values. *)
Definition t := Z.

(** [Set]; the name is reserved in Rocq. *)
Definition Set_ (v : t) : t := v.
Definition SetInt (v : Z) : t := v.

Definition SetByteSlice (b : list Z) : t * bool :=
  let v := be_val (ModNScalar.low32 b) in
  (v, fieldPrime <=? v).
Definition SetBytes (b : list Z) : t * Z :=
  let '(v, o) := SetByteSlice b in (v, if o then 1 else 0).

Definition PutBytes (v : t) : list Z := be_fixed 32 v.
Definition Bytes (v : t) : list Z := be_fixed 32 v.

Definition Normalize (v : t) : t := v mod fieldPrime.
Definition IsZero (v : t) : bool := v =? 0.
Definition IsOne (v : t) : bool := v =? 1.
Definition IsOdd (v : t) : bool := Z.odd v.
Definition IsOddBit (v : t) : Z := if Z.odd v then 1 else 0.
Definition Equals (a b : t) : bool := a =? b.

Definition Add (a b : t) : t := a + b.
Definition Add2 (a b : t) : t := a + b.
Definition AddInt (a : t) (i : Z) : t := a + i.
Definition MulInt (a : t) (k : Z) : t := a * k.
Definition Negate (a : t) (magnitude : Z) : t :=
  (magnitude + 1) * fieldPrime - a.

Definition Mul2 (a b : t) : t := (a * b) mod fieldPrime.
Definition Mul (a b : t) : t := Mul2 a b.
Definition SquareVal (a : t) : t := (a * a) mod fieldPrime.
Definition Square (a : t) : t := SquareVal a.

Definition Inverse (a : t) : t := pow_mod a (fieldPrime - 2) fieldPrime.

Definition SquareRootVal (v : t) : t * bool :=
  let r := pow_mod v ((fieldPrime + 1) / 4) fieldPrime in
  (r, (r * r) mod fieldPrime =? v mod fieldPrime).

Definition IsGtOrEqPrimeMinusOrder (v : t) : bool :=
  fieldPrime - curveN <=? v.

End FieldVal.

(** ** Jacobian points and the group operations ([curve.go])

    The Go functions write their result through a pointer that the
    callers alias with the first operand ([AddNonConst(&q, p1, &q)],
    [DoubleNonConst(&q, &q)]).  Every function below reads each input
    coordinate before the statement that overwrites the aliased output
    coordinate, so the functional reading (inputs to result) is the
    same with or without aliasing. *)

Record JacobianPoint : Type := MakeJacobianPoint {
  X : FieldVal.t;
  Y : FieldVal.t;
  Z' : FieldVal.t   (* the field [Z] *)
}.

(** The zero value [var q JacobianPoint]. *)
Definition zeroPoint : JacobianPoint := MakeJacobianPoint 0 0 0.

Definition endomorphismBeta : FieldVal.t := endomorphismBetaValue.

Definition ToAffine (p : JacobianPoint) : JacobianPoint :=
  let zInv := FieldVal.Inverse (FieldVal.Set_ (Z' p)) in
  let tempZ := FieldVal.SquareVal zInv in
  let pX := FieldVal.Mul (X p) tempZ in
  let tempZ := FieldVal.Mul tempZ zInv in
  let pY := FieldVal.Mul (Y p) tempZ in
  let pZ := FieldVal.SetInt 1 in
  let pX := FieldVal.Normalize pX in
  let pY := FieldVal.Normalize pY in
  MakeJacobianPoint pX pY pZ.

Definition doubleZ1EqualsOne (p : JacobianPoint) : JacobianPoint :=
  let x1 := X p in
  let y1 := Y p in
  let z3 := FieldVal.MulInt (FieldVal.Set_ y1) 2 in
  let a := FieldVal.SquareVal x1 in
  let b := FieldVal.SquareVal y1 in
  let c := FieldVal.SquareVal b in
  let b := FieldVal.Square (FieldVal.Add b x1) in
  let d := FieldVal.Negate (FieldVal.Add (FieldVal.Set_ a) c) 2 in
  let d := FieldVal.MulInt (FieldVal.Add d b) 2 in
  let e := FieldVal.MulInt (FieldVal.Set_ a) 3 in
  let f := FieldVal.SquareVal e in
  let x3 := FieldVal.Negate (FieldVal.MulInt (FieldVal.Set_ d) 2) 16 in
  let x3 := FieldVal.Add x3 f in
  let f := FieldVal.Normalize
             (FieldVal.Add (FieldVal.Negate (FieldVal.Set_ x3) 18) d) in
  let y3 := FieldVal.Negate (FieldVal.MulInt (FieldVal.Set_ c) 8) 8 in
  let f := FieldVal.Mul f e in
  let y3 := FieldVal.Add y3 f in
  MakeJacobianPoint (FieldVal.Normalize x3) (FieldVal.Normalize y3)
                    (FieldVal.Normalize z3).

Definition doubleGeneric (p : JacobianPoint) : JacobianPoint :=
  let x1 := X p in
  let y1 := Y p in
  let z1 := Z' p in
  let z3 := FieldVal.MulInt (FieldVal.Mul2 y1 z1) 2 in
  let a := FieldVal.SquareVal x1 in
  let b := FieldVal.SquareVal y1 in
  let c := FieldVal.SquareVal b in
  let b := FieldVal.Square (FieldVal.Add b x1) in
  let d := FieldVal.Negate (FieldVal.Add (FieldVal.Set_ a) c) 2 in
  let d := FieldVal.MulInt (FieldVal.Add d b) 2 in
  let e := FieldVal.MulInt (FieldVal.Set_ a) 3 in
  let f := FieldVal.SquareVal e in
  let x3 := FieldVal.Negate (FieldVal.MulInt (FieldVal.Set_ d) 2) 16 in
  let x3 := FieldVal.Add x3 f in
  let f := FieldVal.Normalize
             (FieldVal.Add (FieldVal.Negate (FieldVal.Set_ x3) 18) d) in
  let y3 := FieldVal.Negate (FieldVal.MulInt (FieldVal.Set_ c) 8) 8 in
  let f := FieldVal.Mul f e in
  let y3 := FieldVal.Add y3 f in
  MakeJacobianPoint (FieldVal.Normalize x3) (FieldVal.Normalize y3)
                    (FieldVal.Normalize z3).

Definition DoubleNonConst (p : JacobianPoint) : JacobianPoint :=
  if FieldVal.IsZero (Y p) || FieldVal.IsZero (Z' p) then
    MakeJacobianPoint (FieldVal.SetInt 0) (FieldVal.SetInt 0)
                      (FieldVal.SetInt 0)
  else if FieldVal.IsOne (Z' p) then doubleZ1EqualsOne p
  else doubleGeneric p.

(** The branch shared by the four addition functions once the
    x coordinates (in like terms) are found equal. *)
Definition addEqualX (sameY : bool) (p1 : JacobianPoint) : JacobianPoint :=
  if sameY then DoubleNonConst p1
  else MakeJacobianPoint (FieldVal.SetInt 0) (FieldVal.SetInt 0)
                         (FieldVal.SetInt 0).

Definition addZ1AndZ2EqualsOne (p1 p2 : JacobianPoint) : JacobianPoint :=
  let x1 := X p1 in let y1 := Y p1 in
  let x2 := X p2 in let y2 := Y p2 in
  if FieldVal.Equals x1 x2 then addEqualX (FieldVal.Equals y1 y2) p1
  else
  let h := FieldVal.Add (FieldVal.Negate (FieldVal.Set_ x1) 1) x2 in
  let i := FieldVal.MulInt (FieldVal.SquareVal h) 4 in
  let j := FieldVal.Mul2 h i in
  let r := FieldVal.MulInt
             (FieldVal.Add (FieldVal.Negate (FieldVal.Set_ y1) 1) y2) 2 in
  let v := FieldVal.Mul2 x1 i in
  let negJ := FieldVal.Negate (FieldVal.Set_ j) 1 in
  let neg2V := FieldVal.Negate (FieldVal.MulInt (FieldVal.Set_ v) 2) 2 in
  let x3 := FieldVal.Add
              (FieldVal.Add (FieldVal.Square (FieldVal.Set_ r)) negJ) neg2V in
  let negX3 := FieldVal.Negate (FieldVal.Set_ x3) 6 in
  let j := FieldVal.Negate (FieldVal.MulInt (FieldVal.Mul j y1) 2) 2 in
  let y3 := FieldVal.Add
              (FieldVal.Mul (FieldVal.Add (FieldVal.Set_ v) negX3) r) j in
  let z3 := FieldVal.MulInt (FieldVal.Set_ h) 2 in
  MakeJacobianPoint (FieldVal.Normalize x3) (FieldVal.Normalize y3)
                    (FieldVal.Normalize z3).

Definition addZ1EqualsZ2 (p1 p2 : JacobianPoint) : JacobianPoint :=
  let x1 := X p1 in let y1 := Y p1 in let z1 := Z' p1 in
  let x2 := X p2 in let y2 := Y p2 in
  if FieldVal.Equals x1 x2 then addEqualX (FieldVal.Equals y1 y2) p1
  else
  let negX1 := FieldVal.Negate (FieldVal.Set_ x1) 1 in
  let negY1 := FieldVal.Negate (FieldVal.Set_ y1) 1 in
  let a := FieldVal.Add (FieldVal.Set_ negX1) x2 in
  let b := FieldVal.SquareVal a in
  let c := FieldVal.Add (FieldVal.Set_ negY1) y2 in
  let d := FieldVal.SquareVal c in
  let e := FieldVal.Mul2 x1 b in
  let negE := FieldVal.Negate (FieldVal.Set_ e) 1 in
  let f := FieldVal.Mul2 x2 b in
  let x3 := FieldVal.Add (FieldVal.Negate (FieldVal.Add2 e f) 3) d in
  let negX3 := FieldVal.Normalize (FieldVal.Negate (FieldVal.Set_ x3) 5) in
  let f := FieldVal.Add f negE in
  let y3 := FieldVal.Negate (FieldVal.Mul (FieldVal.Set_ y1) f) 3 in
  let e := FieldVal.Mul (FieldVal.Add e negX3) c in
  let y3 := FieldVal.Add y3 e in
  let z3 := FieldVal.Mul2 z1 a in
  MakeJacobianPoint (FieldVal.Normalize x3) (FieldVal.Normalize y3)
                    (FieldVal.Normalize z3).

Definition addZ2EqualsOne (p1 p2 : JacobianPoint) : JacobianPoint :=
  let x1 := X p1 in let y1 := Y p1 in let z1 := Z' p1 in
  let x2 := X p2 in let y2 := Y p2 in
  let z1z1 := FieldVal.SquareVal z1 in
  let u2 := FieldVal.Normalize (FieldVal.Mul (FieldVal.Set_ x2) z1z1) in
  let s2 := FieldVal.Normalize
              (FieldVal.Mul (FieldVal.Mul (FieldVal.Set_ y2) z1z1) z1) in
  if FieldVal.Equals x1 u2 then addEqualX (FieldVal.Equals y1 s2) p1
  else
  let negX1 := FieldVal.Negate (FieldVal.Set_ x1) 1 in
  let h := FieldVal.Add2 u2 negX1 in
  let hh := FieldVal.SquareVal h in
  let i := FieldVal.MulInt (FieldVal.Set_ hh) 4 in
  let j := FieldVal.Mul2 h i in
  let negY1 := FieldVal.Negate (FieldVal.Set_ y1) 1 in
  let r := FieldVal.MulInt (FieldVal.Add (FieldVal.Set_ s2) negY1) 2 in
  let rr := FieldVal.SquareVal r in
  let v := FieldVal.Mul2 x1 i in
  let x3 := FieldVal.Negate
              (FieldVal.Add (FieldVal.MulInt (FieldVal.Set_ v) 2) j) 3 in
  let x3 := FieldVal.Add x3 rr in
  let negX3 := FieldVal.Negate (FieldVal.Set_ x3) 5 in
  let y3 := FieldVal.Negate
              (FieldVal.MulInt (FieldVal.Mul (FieldVal.Set_ y1) j) 2) 2 in
  let v := FieldVal.Mul (FieldVal.Add v negX3) r in
  let y3 := FieldVal.Add y3 v in
  let z3 := FieldVal.Square (FieldVal.Add2 z1 h) in
  let z1z1 := FieldVal.Negate (FieldVal.Add z1z1 hh) 2 in
  let z3 := FieldVal.Add z3 z1z1 in
  MakeJacobianPoint (FieldVal.Normalize x3) (FieldVal.Normalize y3)
                    (FieldVal.Normalize z3).

Definition addGeneric (p1 p2 : JacobianPoint) : JacobianPoint :=
  let x1 := X p1 in let y1 := Y p1 in let z1 := Z' p1 in
  let x2 := X p2 in let y2 := Y p2 in let z2 := Z' p2 in
  let z1z1 := FieldVal.SquareVal z1 in
  let z2z2 := FieldVal.SquareVal z2 in
  let u1 := FieldVal.Normalize (FieldVal.Mul (FieldVal.Set_ x1) z2z2) in
  let u2 := FieldVal.Normalize (FieldVal.Mul (FieldVal.Set_ x2) z1z1) in
  let s1 := FieldVal.Normalize
              (FieldVal.Mul (FieldVal.Mul (FieldVal.Set_ y1) z2z2) z2) in
  let s2 := FieldVal.Normalize
              (FieldVal.Mul (FieldVal.Mul (FieldVal.Set_ y2) z1z1) z1) in
  if FieldVal.Equals u1 u2 then addEqualX (FieldVal.Equals s1 s2) p1
  else
  let negU1 := FieldVal.Negate (FieldVal.Set_ u1) 1 in
  let h := FieldVal.Add2 u2 negU1 in
  let i := FieldVal.Square (FieldVal.MulInt (FieldVal.Set_ h) 2) in
  let j := FieldVal.Mul2 h i in
  let negS1 := FieldVal.Negate (FieldVal.Set_ s1) 1 in
  let r := FieldVal.MulInt (FieldVal.Add (FieldVal.Set_ s2) negS1) 2 in
  let rr := FieldVal.SquareVal r in
  let v := FieldVal.Mul2 u1 i in
  let x3 := FieldVal.Negate
              (FieldVal.Add (FieldVal.MulInt (FieldVal.Set_ v) 2) j) 3 in
  let x3 := FieldVal.Add x3 rr in
  let negX3 := FieldVal.Negate (FieldVal.Set_ x3) 5 in
  let y3 := FieldVal.Negate (FieldVal.MulInt (FieldVal.Mul2 s1 j) 2) 2 in
  let v := FieldVal.Mul (FieldVal.Add v negX3) r in
  let y3 := FieldVal.Add y3 v in
  let z3 := FieldVal.Square (FieldVal.Add2 z1 z2) in
  let z1z1 := FieldVal.Negate (FieldVal.Add z1z1 z2z2) 2 in
  let z3 := FieldVal.Add z3 z1z1 in
  let z3 := FieldVal.Mul z3 h in
  MakeJacobianPoint (FieldVal.Normalize x3) (FieldVal.Normalize y3)
                    (FieldVal.Normalize z3).

(** [(p.X.IsZero() && p.Y.IsZero()) || p.Z.IsZero()] *)
Definition isInfinity (p : JacobianPoint) : bool :=
  (FieldVal.IsZero (X p) && FieldVal.IsZero (Y p)) || FieldVal.IsZero (Z' p).

Definition AddNonConst (p1 p2 : JacobianPoint) : JacobianPoint :=
  if isInfinity p1 then p2
  else if isInfinity p2 then p1
  else
    let isZ1One := FieldVal.IsOne (Z' p1) in
    let isZ2One := FieldVal.IsOne (Z' p2) in
    if isZ1One && isZ2One then addZ1AndZ2EqualsOne p1 p2
    else if FieldVal.Equals (Z' p1) (Z' p2) then addZ1EqualsZ2 p1 p2
    else if isZ2One then addZ2EqualsOne p1 p2
    else addGeneric p1 p2.

(** ** Scalar multiplication ([curve.go]) *)

(** The generator, as a Jacobian point with [Z = 1]. *)
Definition basePoint : JacobianPoint :=
  MakeJacobianPoint curveGx curveGy 1.

Fixpoint mulRef (k : positive) (P : JacobianPoint) : JacobianPoint :=
  match k with
  | xH => P
  | xO k' => DoubleNonConst (mulRef k' P)
  | xI k' => AddNonConst (DoubleNonConst (mulRef k' P)) P
  end.

Definition scalarMulRef (k : Z) (P : JacobianPoint) : JacobianPoint :=
  match k with
  | Zpos k' => mulRef k' P
  | _ => zeroPoint
  end.

(** Modelled from the spec: the precomputed byte-point table (the
    constant [compressedBytePoints] that [s256BytePoints] decodes is not
    among the sources).  The spec describes "a precomputed table indexed
    by (byte position 0..31, byte value 0..255) containing (x, y, z) for
    value * 256^byte_pos * G", walked with "the 32 bytes of k
    (big-endian as produced by Bytes())"; the entry at big-endian index
    [i] is therefore the affine form of [v * 256^(31-i) * G], computed
    here by double-and-add with the group operations above. *)
Definition s256BytePoints (i v : Z) : FieldVal.t * FieldVal.t * FieldVal.t :=
  let pt := ToAffine (scalarMulRef (v * 256 ^ (31 - i)) basePoint) in
  (X pt, Y pt, Z' pt).

(** [for i, byteVal := range k.Bytes()] *)
Fixpoint baseMultLoop (bytes : list Z) (i : Z) (q : JacobianPoint)
  : JacobianPoint :=
  match bytes with
  | [] => q
  | byteVal :: rest =>
      let '(p0, p1, _) := s256BytePoints i byteVal in
      let pt := MakeJacobianPoint (FieldVal.Set_ p0) (FieldVal.Set_ p1)
                                  (FieldVal.SetInt 1) in
      baseMultLoop rest (i + 1) (AddNonConst q pt)
  end.

Definition ScalarBaseMultNonConst (k : ModNScalar.t) : JacobianPoint :=
  baseMultLoop (ModNScalar.Bytes k) 0 zeroPoint.

(** The inner loop of [ScalarMultNonConst] over the bits of one byte,
    from bit 7 down to bit 0; [n] counts the bits left. *)
Fixpoint nafBits (n : nat) (k1BytePos k1ByteNeg k2BytePos k2ByteNeg : Z)
    (p1 p1Neg p2 p2Neg q : JacobianPoint) : JacobianPoint :=
  match n with
  | O => q
  | S bit =>
      let mask := Z.shiftl 1 (Z.of_nat bit) in
      let q := DoubleNonConst q in
      let q := if Z.land k1BytePos mask =? mask then AddNonConst q p1
               else if Z.land k1ByteNeg mask =? mask then AddNonConst q p1Neg
               else q in
      let q := if Z.land k2BytePos mask =? mask then AddNonConst q p2
               else if Z.land k2ByteNeg mask =? mask then AddNonConst q p2Neg
               else q in
      nafBits bit k1BytePos k1ByteNeg k2BytePos k2ByteNeg p1 p1Neg p2 p2Neg q
  end.

(** The outer loop, [for i := 0; i < m; i++]; [n] counts the bytes
    left, [i] is the index. *)
Fixpoint nafBytes (n : nat) (i m k1Len k2Len : Z)
    (k1PosNAF k1NegNAF k2PosNAF k2NegNAF : list Z)
    (p1 p1Neg p2 p2Neg q : JacobianPoint) : result JacobianPoint :=
  match n with
  | O => Ok q
  | S n' =>
      b1 <- (if i >=? m - k1Len
             then bp <- index k1PosNAF (i - (m - k1Len)) ;;
                  bn <- index k1NegNAF (i - (m - k1Len)) ;;
                  Ok (bp, bn)
             else Ok (0, 0)) ;;
      b2 <- (if i >=? m - k2Len
             then bp <- index k2PosNAF (i - (m - k2Len)) ;;
                  bn <- index k2NegNAF (i - (m - k2Len)) ;;
                  Ok (bp, bn)
             else Ok (0, 0)) ;;
      let q := nafBits 8 (fst b1) (snd b1) (fst b2) (snd b2)
                       p1 p1Neg p2 p2Neg q in
      nafBytes n' (i + 1) m k1Len k2Len
               k1PosNAF k1NegNAF k2PosNAF k2NegNAF p1 p1Neg p2 p2Neg q
  end.

Definition ScalarMultNonConst (k : ModNScalar.t) (point : JacobianPoint)
  : result JacobianPoint :=
  let kBytes := ModNScalar.Bytes k in
  let '(k1, k2, signK1, signK2) := splitK kBytes in
  let p1 := point in
  let p1Neg := MakeJacobianPoint
                 (X p1) (FieldVal.Normalize (FieldVal.Negate (Y p1) 1))
                 (Z' p1) in
  let p2 := MakeJacobianPoint
              (FieldVal.Normalize (FieldVal.Mul (X p1) endomorphismBeta))
              (Y p1) (Z' p1) in
  let p2Neg := MakeJacobianPoint
                 (X p2) (FieldVal.Normalize (FieldVal.Negate (Y p2) 1))
                 (Z' p2) in
  let '(p1, p1Neg) := if signK1 =? -1 then (p1Neg, p1) else (p1, p1Neg) in
  let '(p2, p2Neg) := if signK2 =? -1 then (p2Neg, p2) else (p2, p2Neg) in
  k1NAF <- naf k1 ;;
  k2NAF <- naf k2 ;;
  let k1PosNAF := nafScalar_Pos k1NAF in
  let k1NegNAF := nafScalar_Neg k1NAF in
  let k2PosNAF := nafScalar_Pos k2NAF in
  let k2NegNAF := nafScalar_Neg k2NAF in
  let k1Len := len k1PosNAF in
  let k2Len := len k2PosNAF in
  let m := if k1Len <? k2Len then k2Len else k1Len in
  nafBytes (Z.to_nat m) 0 m k1Len k2Len
           k1PosNAF k1NegNAF k2PosNAF k2NegNAF p1 p1Neg p2 p2Neg zeroPoint.

(** ** Signing ([signature.go]) *)

Definition fieldToModNScalar (v : FieldVal.t) : ModNScalar.t * Z :=
  ModNScalar.SetBytes (FieldVal.PutBytes v).

Definition modNScalarToField (v : ModNScalar.t) : FieldVal.t :=
  fst (FieldVal.SetBytes (ModNScalar.PutBytesUnchecked v)).

(** Steps 3 to 6 of [sign], from the affine point [kG] of step 2.
    [sign] returns [(nil, false)] when the nonce gives [r = 0] or
    [s = 0]; that outcome is [None]. *)
Definition signFrom (kG : JacobianPoint) (privKey k : ModNScalar.t)
    (hash : list Z) : option Signature :=
  let '(r, overflow) := fieldToModNScalar (X kG) in
  if ModNScalar.IsZero r then None else
  let pubKeyRecoveryCode :=
    Z.lor ((Z.shiftl overflow 1) mod 256)
          ((FieldVal.IsOddBit (Y kG)) mod 256) in
  let e := fst (ModNScalar.SetByteSlice hash) in
  let kinv := ModNScalar.InverseValNonConst k in
  let s := ModNScalar.Mul
             (ModNScalar.Add (ModNScalar.Mul2 privKey r) e) kinv in
  if ModNScalar.IsZero s then None else
  let '(s, pubKeyRecoveryCode) :=
    if ModNScalar.IsOverHalfOrder s
    then (ModNScalar.Negate s, Z.lxor pubKeyRecoveryCode 0x01)
    else (s, pubKeyRecoveryCode) in
  Some (mkSignature r s pubKeyRecoveryCode).

(** [sign]: step 2 computes [kG] in affine coordinates, then steps 3
    to 6 above. *)
Definition sign (privKey nonce : ModNScalar.t) (hash : list Z)
  : option Signature :=
  let k := nonce in
  let kG := ToAffine (ScalarBaseMultNonConst k) in
  signFrom kG privKey k hash.

(** *** Vocabulary for statements about points *)

(** Coordinates in [0, p): what the Go comments call a normalized
    point. *)
Definition normalizedPoint (P : JacobianPoint) : Prop :=
  0 <= X P < fieldPrime /\ 0 <= Y P < fieldPrime /\ 0 <= Z' P < fieldPrime.

(** [X = x * Z^2]: the point has affine x coordinate [x]. *)
Definition hasAffineX (P : JacobianPoint) (x : Z) : Prop :=
  X P = (x * (Z' P * Z' P)) mod fieldPrime.

(** The y coordinate of [P] brought to the denominator of [Q]. *)
Definition likeY (P Q : JacobianPoint) : Z :=
  (Y P * (Z' Q * Z' Q * Z' Q)) mod fieldPrime.

Definition infinityPoint : JacobianPoint := MakeJacobianPoint 0 0 0.

(** *** Test vectors *)

(** "R == N" of [TestSignatureParsing]. *)
Definition sigREqualsOrder : list Z :=
  [0x30; 0x45; 0x02; 0x21; 0x00] ++ be_fixed 32 curveN ++
  [0x02; 0x20] ++
  be_fixed 32
    0x181522ec8eca07de4860a4acdd12909d831cc56cbbac4622082221a8768d1d09.

(** ** Export, compact signatures and keys ([signature.go]) *)

(** [RecoveryCode]: panics on a signature that carries no recovery
    code. *)
Definition RecoveryCode (sig : Signature) : result Z :=
  if sig_v sig =? 0xff then Panic else Ok (sig_v sig).

(** [Export]: unlike [ExportCompact], the S value returned is the
    negated copy [sigS]. *)
Definition Export (sig : Signature) : Z * Z * Z :=
  let v := sig_v sig in
  let sigS := sig_s sig in
  let '(sigS, v) :=
    if ModNScalar.IsOverHalfOrder sigS
    then (ModNScalar.Negate sigS, Z.lxor v 0x01)
    else (sigS, v) in
  let r := ModNScalar.Bytes (sig_r sig) in
  let s := ModNScalar.Bytes sigS in
  (be_val r, be_val s, v).

(** [ParseCompactSignature] returns [(sig, wasCompressed, err)]; the
    pair below is [(sig or err, wasCompressed)]. *)
Definition ParseCompactSignature (signature : list Z)
  : result Signature * bool :=
  if negb (len signature =? compactSigSize)
  then (Err ErrSigInvalidLen, false) else
  let minValidCode := compactSigMagicOffset in
  let maxValidCode := compactSigMagicOffset + compactSigCompPubKey + 3 in
  match index signature 0 with
  | Panic => (Panic, false)
  | Err e => (Err e, false)
  | Ok sigRecoveryCode =>
    if (sigRecoveryCode <? minValidCode) || (sigRecoveryCode >? maxValidCode)
    then (Err ErrSigInvalidRecoveryCode, false) else
    let sigRecoveryCode := (sigRecoveryCode - compactSigMagicOffset) mod 256 in
    let wasCompressed :=
      negb (Z.land sigRecoveryCode compactSigCompPubKey =? 0) in
    let pubKeyRecoveryCode := Z.land sigRecoveryCode 3 in
    let '(r, overflow) := ModNScalar.SetByteSlice (slice signature 1 33) in
    if overflow then (Err ErrSigRTooBig, wasCompressed) else
    if ModNScalar.IsZero r then (Err ErrSigRIsZero, wasCompressed) else
    let '(s, overflow) :=
      ModNScalar.SetByteSlice (slice signature 33 (len signature)) in
    if overflow then (Err ErrSigSTooBig, wasCompressed) else
    if ModNScalar.IsZero s then (Err ErrSigSIsZero, wasCompressed) else
    (Ok (mkSignature r s pubKeyRecoveryCode), wasCompressed)
  end.

(** ** Private keys

    [PrivateKey] is a struct with the single field [key]. *)
Record PrivateKey : Type := mkPrivateKey { priv_key : ModNScalar.t }.





(** ** Public keys *)

(** Modelled from the spec: the type [PublicKey] ([pubkey.go] is not
    among the sources), "Affine (X, Y) on the curve"; [AsJacobian]
    gives the point with these coordinates and [Z = 1]. *)
Record PublicKey : Type := mkPublicKey {
  pk_x : FieldVal.t;
  pk_y : FieldVal.t
}.

Definition NewPublicKey (x y : FieldVal.t) : PublicKey := mkPublicKey x y.

Definition AsJacobian (pk : PublicKey) : JacobianPoint :=
  MakeJacobianPoint (pk_x pk) (pk_y pk) (FieldVal.SetInt 1).

(** ** The curve equation ([curve.go]) *)

Definition isOnCurve (fx fy : FieldVal.t) : bool :=
  let y2 := FieldVal.Normalize (FieldVal.SquareVal fy) in
  let result := FieldVal.Normalize
                  (FieldVal.AddInt (FieldVal.Mul (FieldVal.SquareVal fx) fx) 7) in
  FieldVal.Equals y2 result.

(** [DecompressY] returns its success flag; [resultY] is written by
    [SquareRootVal] also when the root does not exist. *)
Definition DecompressY (x : FieldVal.t) (odd : bool) : FieldVal.t * bool :=
  let x3PlusB := FieldVal.AddInt (FieldVal.Mul (FieldVal.SquareVal x) x) 7 in
  let '(resultY, hasSqrt) := FieldVal.SquareRootVal x3PlusB in
  if negb hasSqrt then (resultY, false) else
  let resultY := FieldVal.Normalize resultY in
  if negb (Bool.eqb (FieldVal.IsOdd resultY) odd)
  then (FieldVal.Negate resultY 1, true)
  else (resultY, true).

(** ** Verification and recovery ([signature.go]) *)

(** [orderAsFieldVal]: the group order as a field value. *)
Definition orderAsFieldVal : FieldVal.t :=
  fst (FieldVal.SetByteSlice (big_Bytes curveN)).

(** Steps 6 to 10 of [Verify], from the point [X = u1G + u2Q] of
    step 5. *)
Definition verifyFrom (Xp : JacobianPoint) (sig : Signature) : bool :=
  if isInfinity Xp then false else
  let z := FieldVal.SquareVal (Z' Xp) in
  let sigRModP := modNScalarToField (sig_r sig) in
  let result := FieldVal.Normalize (FieldVal.Mul2 sigRModP z) in
  if FieldVal.Equals result (X Xp) then true else
  if FieldVal.IsGtOrEqPrimeMinusOrder sigRModP then false else
  let sigRModP := FieldVal.Add sigRModP orderAsFieldVal in
  let result := FieldVal.Normalize (FieldVal.Mul2 sigRModP z) in
  FieldVal.Equals result (X Xp).

Definition Verify (sig : Signature) (hash : list Z) (pubKey : PublicKey)
  : result bool :=
  if ModNScalar.IsZero (sig_r sig) || ModNScalar.IsZero (sig_s sig)
  then Ok false else
  let e := fst (ModNScalar.SetByteSlice hash) in
  let w := ModNScalar.InverseValNonConst (sig_s sig) in
  let u1 := ModNScalar.Mul2 e w in
  let u2 := ModNScalar.Mul2 (sig_r sig) w in
  let Q := AsJacobian pubKey in
  let u1G := ScalarBaseMultNonConst u1 in
  u2Q <- ScalarMultNonConst u2 Q ;;
  let Xp := AddNonConst u1G u2Q in
  Ok (verifyFrom Xp sig).

(** Steps 2 to 5 of [RecoverPublicKey]: the random point [X] of the
    signature, from [r] and the recovery code. *)
Definition recoverPoint (sig : Signature) : result JacobianPoint :=
  let fieldR := modNScalarToField (sig_r sig) in
  fieldR <- (if negb (Z.land (sig_v sig) pubKeyRecoveryCodeOverflowBit =? 0)
             then _ <- failif (FieldVal.IsGtOrEqPrimeMinusOrder fieldR)
                              ErrSigOverflowsPrime ;;
                  Ok (FieldVal.Add fieldR orderAsFieldVal)
             else Ok fieldR) ;;
  let oddY := negb (Z.land (sig_v sig) pubKeyRecoveryCodeOddnessBit =? 0) in
  let '(y, valid) := DecompressY fieldR oddY in
  _ <- failif (negb valid) ErrPointNotOnCurve ;;
  Ok (MakeJacobianPoint (FieldVal.Set_ (FieldVal.Normalize fieldR))
                        (FieldVal.Set_ (FieldVal.Normalize y))
                        (FieldVal.SetInt 1)).

Definition RecoverPublicKey (sig : Signature) (hash : list Z)
  : result PublicKey :=
  if sig_v sig =? 0xff then Panic else
  Xp <- recoverPoint sig ;;
  let e := fst (ModNScalar.SetByteSlice hash) in
  let w := ModNScalar.InverseValNonConst (sig_r sig) in
  let u1 := ModNScalar.Negate (ModNScalar.Mul2 e w) in
  let u2 := ModNScalar.Mul2 (sig_s sig) w in
  let u1G := ScalarBaseMultNonConst u1 in
  u2X <- ScalarMultNonConst u2 Xp ;;
  let Q := AddNonConst u1G u2X in
  _ <- failif (isInfinity Q) ErrPointNotOnCurve ;;
  let Q := ToAffine Q in
  Ok (NewPublicKey (X Q) (Y Q)).

(** [RecoverCompact] returns [(pk, wasCompressed, err)]. *)
Definition RecoverCompact (signature hash : list Z)
  : result PublicKey * bool :=
  match ParseCompactSignature signature with
  | (Ok sig, wasCompressed) => (RecoverPublicKey sig hash, wasCompressed)
  | (Err e, _) => (Err e, false)
  | (Panic, _) => (Panic, false)
  end.

(** [GenerateSharedSecret] *)
Definition GenerateSharedSecret (privkey : PrivateKey) (pubkey : PublicKey)
  : result (list Z) :=
  let point := AsJacobian pubkey in
  result <- ScalarMultNonConst (priv_key privkey) point ;;
  let result := ToAffine result in
  Ok (FieldVal.Bytes (X result)).

(** ** The adaptor to [crypto/elliptic] ([ellipticadaptor.go]) *)

Definition byteSize : Z := 256 / 8.

Definition moduloReduce (k : list Z) : list Z :=
  if len k >? byteSize
  then let tmpK := be_val k in
       let tmpK := tmpK mod curveN in
       big_Bytes tmpK
  else k.

(** * Proofs *)

(** ** Byte slices *)

Lemma len_nonneg {A} (l : list A) : 0 <= len l.
Proof. unfold len; lia. Qed.

Lemma len_cons {A} (a : A) (l : list A) : len (a :: l) = 1 + len l.
Proof. unfold len; simpl length; lia. Qed.

Lemma len_app {A} (l1 l2 : list A) : len (l1 ++ l2) = len l1 + len l2.
Proof. unfold len; rewrite length_app; lia. Qed.

Lemma len_nil {A} : len (@nil A) = 0.
Proof. reflexivity. Qed.

Lemma be_val_acc (l : list Z) (a : Z) :
  fold_left (fun acc b => acc * 256 + b) l a = a * 256 ^ len l + be_val l.
Proof.
  unfold be_val. revert a.
  induction l as [|b l IH]; intros a.
  - cbn. lia.
  - cbn [fold_left]. rewrite IH, (IH (0 * 256 + b)).
    rewrite len_cons, Z.pow_add_r by (pose proof (len_nonneg l); lia).
    lia.
Qed.

Lemma be_val_nil : be_val [] = 0.
Proof. reflexivity. Qed.

Lemma be_val_cons (b : Z) (l : list Z) :
  be_val (b :: l) = b * 256 ^ len l + be_val l.
Proof.
  unfold be_val at 1. simpl fold_left. rewrite be_val_acc. lia.
Qed.

Lemma be_val_app (l1 l2 : list Z) :
  be_val (l1 ++ l2) = be_val l1 * 256 ^ len l2 + be_val l2.
Proof.
  unfold be_val at 1. rewrite fold_left_app.
  fold (be_val l1). apply be_val_acc.
Qed.

Lemma be_val_bound (l : list Z) :
  is_bytes l -> 0 <= be_val l < 256 ^ len l.
Proof.
  induction 1 as [|b l Hb Hl IH].
  - cbn. lia.
  - rewrite be_val_cons, len_cons.
    rewrite Z.pow_add_r by (pose proof (len_nonneg l); lia).
    unfold is_byte in Hb. nia.
Qed.

Lemma length_be_fixed (w : nat) (v : Z) : length (be_fixed w v) = w.
Proof.
  revert v. induction w as [|w IH]; intros v; simpl.
  - reflexivity.
  - rewrite length_app, IH. simpl. lia.
Qed.

Lemma len_be_fixed (w : nat) (v : Z) : len (be_fixed w v) = Z.of_nat w.
Proof. unfold len. now rewrite length_be_fixed. Qed.

Lemma is_bytes_be_fixed (w : nat) (v : Z) : is_bytes (be_fixed w v).
Proof.
  revert v. induction w as [|w IH]; intros v; simpl.
  - constructor.
  - apply Forall_app. split; [apply IH|].
    constructor; [|constructor].
    unfold is_byte. apply Z.mod_pos_bound. lia.
Qed.

Lemma be_val_be_fixed (w : nat) (v : Z) :
  be_val (be_fixed w v) = v mod 256 ^ Z.of_nat w.
Proof.
  revert v. induction w as [|w IH]; intros v.
  - simpl. now rewrite Z.mod_1_r.
  - cbn [be_fixed]. rewrite be_val_app, IH.
    replace (len [v mod 256]) with 1 by reflexivity.
    rewrite Nat2Z.inj_succ, Z.pow_succ_r by lia.
    rewrite Z.pow_1_r. change (be_val [v mod 256]) with (0 * 256 + v mod 256).
    rewrite Z.rem_mul_r by (try lia; apply Z.pow_pos_nonneg; lia).
    lia.
Qed.

Lemma be_val_be_fixed_small (w : nat) (v : Z) :
  0 <= v < 256 ^ Z.of_nat w -> be_val (be_fixed w v) = v.
Proof. intros H. rewrite be_val_be_fixed. now apply Z.mod_small. Qed.

Lemma be_val_strip_zeros (l : list Z) : be_val (strip_zeros l) = be_val l.
Proof.
  induction l as [|b l IH]; [reflexivity|].
  simpl. destruct (Z.eqb_spec b 0) as [->|]; [|reflexivity].
  rewrite IH, be_val_cons. lia.
Qed.

Lemma is_bytes_strip_zeros (l : list Z) : is_bytes l -> is_bytes (strip_zeros l).
Proof.
  induction 1 as [|b l Hb Hl IH]; simpl; [constructor|].
  destruct (b =? 0); [assumption|now constructor].
Qed.

Lemma len_strip_zeros (l : list Z) : len (strip_zeros l) <= len l.
Proof.
  induction l as [|b l IH]; simpl; [lia|].
  destruct (b =? 0); rewrite ?len_cons; lia.
Qed.

Lemma curveN_bound : curveN < 256 ^ 32.
Proof. reflexivity. Qed.

Lemma ModN_be_val_bytes (s : ModNScalar.t) :
  ModNScalar.wf s -> be_val (ModNScalar.PutBytesUnchecked s) = s.
Proof.
  intros [H0 H1]. apply (be_val_be_fixed_small 32).
  pose proof curveN_bound. change (Z.of_nat 32) with 32. lia.
Qed.

Lemma slice_app {A} (l0 l1 l2 : list A) (lo hi : Z) :
  lo = len l0 -> hi = lo + len l1 -> slice (l0 ++ l1 ++ l2) lo hi = l1.
Proof.
  intros -> ->. unfold slice, len.
  replace (Z.of_nat (length l0) + Z.of_nat (length l1) - Z.of_nat (length l0))
    with (Z.of_nat (length l1)) by lia.
  rewrite !Nat2Z.id.
  rewrite skipn_app, skipn_all, Nat.sub_diag. cbn [skipn app].
  rewrite firstn_app, firstn_all, Nat.sub_diag. cbn [firstn].
  apply app_nil_r.
Qed.

Lemma index_app_right (l0 : list Z) (b : Z) (l1 : list Z) (i : Z) :
  i = len l0 -> index (l0 ++ b :: l1) i = Ok b.
Proof.
  intros ->. unfold index, len.
  destruct (Z.ltb_spec (Z.of_nat (length l0)) 0) as [H|H]; [lia|].
  rewrite Nat2Z.id, nth_error_app2, Nat.sub_diag by lia.
  reflexivity.
Qed.

Lemma curveN_odd : curveN = 2 * (curveN / 2) + 1.
Proof. reflexivity. Qed.

Lemma curveN_pos : 0 < curveN.
Proof. reflexivity. Qed.

Lemma ModN_Negate_pos (s : ModNScalar.t) :
  0 < s < curveN -> ModNScalar.Negate s = curveN - s.
Proof.
  intros H. unfold ModNScalar.Negate.
  rewrite <- (Z.mod_small (curveN - s) curveN) by lia.
  replace (curveN - s) with (- s + 1 * curveN) by lia.
  now rewrite Z.mod_add by lia.
Qed.

Lemma slice_code_first {A} (c : A) (l1 l2 : list A) :
  len l1 = 32 -> len l2 = 32 ->
  slice (c :: l1 ++ l2) 1 (1 + 32) = l1 /\
  slice (c :: l1 ++ l2) (1 + 32) (1 + 64) = l2.
Proof.
  intros H1 H2. split.
  - apply (slice_app [c]); [reflexivity|lia].
  - change (c :: l1 ++ l2) with ((c :: l1) ++ l2).
    rewrite <- (app_nil_r l2) at 1.
    apply slice_app; rewrite ?len_cons; lia.
Qed.

Lemma slice_code_last {A} (c : A) (l1 l2 : list A) :
  len l1 = 32 -> len l2 = 32 ->
  slice (l1 ++ l2 ++ [c]) 0 (0 + 32) = l1 /\
  slice (l1 ++ l2 ++ [c]) (0 + 32) (0 + 64) = l2.
Proof.
  intros H1 H2. split.
  - apply (slice_app []); [reflexivity|lia].
  - apply slice_app; lia.
Qed.

Lemma ExportCompact_eq (sig : Signature) (first : bool) (off : Z) :
  exists c,
    c = (if ModNScalar.IsOverHalfOrder (sig_s sig)
         then (Z.lxor (sig_v sig) 1 + off) mod 256
         else (sig_v sig + off) mod 256) /\
    ExportCompact sig first off =
    if first then c :: be_fixed 32 (sig_r sig) ++ be_fixed 32 (sig_s sig)
    else be_fixed 32 (sig_r sig) ++ be_fixed 32 (sig_s sig) ++ [c].
Proof.
  eexists. split; [reflexivity|].
  unfold ExportCompact, ModNScalar.PutBytesUnchecked.
  now destruct (ModNScalar.IsOverHalfOrder (sig_s sig)), first.
Qed.

(** C10.  [ExportCompact] always fills the R and S fields with the
    32-byte big-endian encodings of the stored [r] and [s]; when [s] is
    over the half order and the recovery code is in [0, 3], the
    recovery-code byte is [offset + (v XOR 1)] (oddness bit flipped)
    while the S field still holds the original high [s], not [n - s]. *)
Theorem ExportCompact_fields (sig : Signature) (recoveryCodeFirst : bool)
    (recoveryCodeOffset : Z) :
  ModNScalar.wf (sig_r sig) -> ModNScalar.wf (sig_s sig) ->
  let out := ExportCompact sig recoveryCodeFirst recoveryCodeOffset in
  let base := if recoveryCodeFirst then 1 else 0 in
  let codeAt := if recoveryCodeFirst then 0 else 64 in
  let rField := slice out base (base + 32) in
  let sField := slice out (base + 32) (base + 64) in
  len out = compactSigSize /\
  rField = be_fixed 32 (sig_r sig) /\ be_val rField = sig_r sig /\
  sField = be_fixed 32 (sig_s sig) /\ be_val sField = sig_s sig /\
  (ModNScalar.IsOverHalfOrder (sig_s sig) = true ->
   0 <= sig_v sig <= 3 ->
   index out codeAt
     = Ok ((Z.lxor (sig_v sig) 1 + recoveryCodeOffset) mod 256) /\
   0 <= Z.lxor (sig_v sig) 1 <= 3 /\
   Z.testbit (Z.lxor (sig_v sig) 1) 0 = negb (Z.testbit (sig_v sig) 0) /\
   Z.testbit (Z.lxor (sig_v sig) 1) 1 = Z.testbit (sig_v sig) 1 /\
   curveN / 2 < be_val sField /\
   be_val sField <> ModNScalar.Negate (sig_s sig)).
Proof.
  intros Hr Hs out base codeAt rField sField.
  destruct (ExportCompact_eq sig recoveryCodeFirst recoveryCodeOffset)
    as (c & Hc & Hout).
  fold out in Hout.
  assert (L1 : len (be_fixed 32 (sig_r sig)) = 32) by apply len_be_fixed.
  assert (L2 : len (be_fixed 32 (sig_s sig)) = 32) by apply len_be_fixed.
  assert (HRS : rField = be_fixed 32 (sig_r sig) /\
                sField = be_fixed 32 (sig_s sig)).
  { subst rField sField base. rewrite Hout. destruct recoveryCodeFirst.
    - now apply slice_code_first.
    - now apply slice_code_last. }
  destruct HRS as [HR HS].
  assert (HSv : be_val sField = sig_s sig)
    by (rewrite HS; now apply ModN_be_val_bytes).
  split; [|split; [exact HR|split; [|split; [exact HS|split; [exact HSv|]]]]].
  - rewrite Hout. destruct recoveryCodeFirst;
      rewrite ?len_cons, ?len_app, L1, L2; reflexivity.
  - rewrite HR; now apply ModN_be_val_bytes.
  - intros Hover Hv. rewrite Hover in Hc.
    assert (Hv4 : sig_v sig = 0 \/ sig_v sig = 1 \/ sig_v sig = 2 \/
                  sig_v sig = 3) by lia.
    unfold ModNScalar.IsOverHalfOrder in Hover. apply Z.ltb_lt in Hover.
    split; [|split; [|split; [|split; [|split]]]].
    + subst codeAt. rewrite Hout, <- Hc. destruct recoveryCodeFirst.
      * reflexivity.
      * rewrite app_assoc. apply index_app_right.
        rewrite len_app. lia.
    + destruct Hv4 as [-> | [-> | [-> | ->]]]; cbn; lia.
    + rewrite Z.lxor_spec. now destruct (Z.testbit (sig_v sig) 0).
    + rewrite Z.lxor_spec. cbn. now rewrite xorb_false_r.
    + now rewrite HSv.
    + rewrite HSv. destruct Hs as [Hs0 Hs1].
      rewrite ModN_Negate_pos by (pose proof curveN_odd; lia).
      pose proof curveN_odd. lia.
Qed.

(** ** DER parsing *)

Lemma index_byteAt (s : list Z) (i : Z) :
  0 <= i < len s -> index s i = Ok (byteAt s i).
Proof.
  intros [H0 H1]. unfold index, byteAt, len in *.
  destruct (Z.ltb_spec i 0) as [H|_]; [lia|].
  destruct (nth_error s (Z.to_nat i)) as [b|] eqn:E.
  - now rewrite (nth_error_nth _ _ _ E).
  - apply nth_error_None in E. lia.
Qed.

Lemma is_bytes_byteAt (s : list Z) (i : Z) : is_bytes s -> is_byte (byteAt s i).
Proof.
  intros H. unfold byteAt.
  destruct (Nat.lt_ge_cases (Z.to_nat i) (length s)) as [Hlt|Hge].
  - unfold is_bytes in H. rewrite Forall_forall in H.
    apply H. now apply nth_In.
  - rewrite nth_overflow by assumption. unfold is_byte; lia.
Qed.

Lemma is_bytes_slice (s : list Z) (lo hi : Z) :
  is_bytes s -> is_bytes (slice s lo hi).
Proof.
  intros H. unfold slice, is_bytes in *.
  assert (Hs : Forall is_byte (skipn (Z.to_nat lo) s)).
  { rewrite <- (firstn_skipn (Z.to_nat lo) s) in H.
    now apply Forall_app in H. }
  rewrite <- (firstn_skipn (Z.to_nat (hi - lo)) (skipn (Z.to_nat lo) s)) in Hs.
  now apply Forall_app in Hs.
Qed.

Lemma len_slice {A} (s : list A) (lo hi : Z) :
  0 <= lo <= hi -> hi <= len s -> len (slice s lo hi) = hi - lo.
Proof.
  intros H1 H2. unfold slice, len in *.
  rewrite length_firstn, length_skipn. lia.
Qed.

Lemma slice_cons_byteAt (s : list Z) (lo hi : Z) :
  0 <= lo < hi -> lo < len s ->
  slice s lo hi = byteAt s lo :: slice s (lo + 1) hi.
Proof.
  intros H1 H2. unfold slice, byteAt, len in *.
  replace (Z.to_nat (hi - lo)) with (S (Z.to_nat (hi - (lo + 1)))) by lia.
  replace (Z.to_nat (lo + 1)) with (S (Z.to_nat lo)) by lia.
  assert (Hn : (Z.to_nat lo < length s)%nat) by lia.
  revert Hn. generalize (Z.to_nat lo) as n. generalize (Z.to_nat (hi - (lo+1))) as m.
  clear. intros m n. revert s.
  induction n as [|n IH]; intros [|a s] Hn; simpl in Hn; try lia.
  - reflexivity.
  - cbn [skipn nth]. rewrite IH by lia. reflexivity.
Qed.

Lemma slice_nil {A} (s : list A) (lo : Z) : slice s lo lo = [].
Proof. unfold slice. now rewrite Z.sub_diag. Qed.

Lemma strip_zeros_long (l : list Z) :
  is_bytes l -> 32 < len (strip_zeros l) -> 256 ^ 32 <= be_val l.
Proof.
  intros Hb Hl. rewrite <- be_val_strip_zeros.
  apply is_bytes_strip_zeros in Hb.
  assert (Hhd : match strip_zeros l with b :: _ => b <> 0 | [] => True end).
  { clear. induction l as [|b l IH]; simpl; [exact I|].
    destruct (Z.eqb_spec b 0); [exact IH|assumption]. }
  destruct (strip_zeros l) as [|b t]; [cbn in Hl; lia|].
  inversion Hb as [|? ? Hb0 Hbt]; subst.
  rewrite be_val_cons. rewrite len_cons in Hl.
  pose proof (be_val_bound t Hbt) as Ht.
  unfold is_byte in Hb0.
  assert (256 ^ 32 <= 256 ^ len t) by (apply Z.pow_le_mono_r; lia).
  nia.
Qed.

Lemma low32_short (l : list Z) : len l <= 32 -> ModNScalar.low32 l = l.
Proof.
  intros H. unfold ModNScalar.low32, len in *.
  replace (length l - 32)%nat with 0%nat by lia. reflexivity.
Qed.

Lemma failif_step {A} (c : bool) (e : ErrorKind) (k : unit -> result A) :
  bind (failif c e) k = if c then Err e else k tt.
Proof. now destruct c. Qed.

Lemma SetByteSlice_strip (l : list Z) :
  is_bytes l -> len (strip_zeros l) <= 32 ->
  ModNScalar.SetByteSlice (strip_zeros l)
  = (be_val l mod curveN, curveN <=? be_val l).
Proof.
  intros Hb Hl. unfold ModNScalar.SetByteSlice.
  now rewrite low32_short, be_val_strip_zeros.
Qed.

Lemma ParseDER_decision (sig : list Z) :
  is_bytes sig ->
  ParseDERSignature sig =
  match DERFirstViolation sig with
  | Some e => Err e
  | None => Ok (NewSignature (be_val (DERFieldR sig)) (be_val (DERFieldS sig)))
  end.
Proof.
  intros Hb.
  unfold ParseDERSignature, DERFirstViolation, DERFieldR, DERFieldS.
  unfold minSigLen, maxSigLen, asn1SequenceID, asn1IntegerID.
  cbv zeta.
  rewrite failif_step.
  destruct (Z.ltb_spec (len sig) 8) as [|H8]; [reflexivity|].
  rewrite failif_step.
  destruct (len sig >? 72) eqn:H72; [reflexivity|].
  rewrite index_byteAt by lia. cbn [bind]. rewrite failif_step.
  destruct (negb (byteAt sig 0 =? 48)); [reflexivity|].
  rewrite index_byteAt by lia. cbn [bind]. rewrite failif_step.
  destruct (negb (byteAt sig 1 =? len sig - 2)); [reflexivity|].
  rewrite index_byteAt by lia. cbn [bind]. rewrite failif_step.
  set (rLen := byteAt sig 3).
  assert (HrLen : 0 <= rLen < 256) by apply (is_bytes_byteAt sig 3 Hb).
  replace (4 + rLen + 1 + 1 + 1) with (7 + rLen) by lia.
  replace (4 + rLen + 1 + 1) with (6 + rLen) by lia.
  replace (4 + rLen + 1) with (5 + rLen) by lia.
  destruct (4 + rLen >=? len sig) eqn:HsT; [reflexivity|].
  rewrite failif_step.
  destruct (5 + rLen >=? len sig) eqn:HsL; [reflexivity|].
  rewrite index_byteAt by lia. cbn [bind]. rewrite failif_step.
  set (sLen := byteAt sig (5 + rLen)).
  assert (HsLen : 0 <= sLen < 256) by apply (is_bytes_byteAt sig _ Hb).
  destruct (Z.eqb_spec (6 + rLen + sLen) (len sig)) as [Hlen|];
    [|reflexivity].
  cbn [negb].
  rewrite index_byteAt by lia. cbn [bind]. rewrite failif_step.
  destruct (negb (byteAt sig 2 =? 2)); [reflexivity|].
  rewrite failif_step.
  destruct (Z.eqb_spec rLen 0) as [|HrNZ]; [reflexivity|].
  set (rb := slice sig 4 (4 + rLen)).
  assert (Hrb : rb = byteAt sig 4 :: slice sig (4 + 1) (4 + rLen))
    by (apply slice_cons_byteAt; lia).
  rewrite index_byteAt by lia. cbn [bind]. rewrite failif_step.
  replace (DERNegative rb) with (negb (Z.land (byteAt sig 4) 128 =? 0))
    by (rewrite Hrb; reflexivity).
  destruct (negb (Z.land (byteAt sig 4) 128 =? 0)); [reflexivity|].
  assert (Hpad :
    (if rLen >? 1
     then (if byteAt sig 4 =? 0
           then b2 <- index sig (4 + 1);; Ok (Z.land b2 128 =? 0)
           else Ok false)
     else Ok false) = Ok (DERPadded rb)).
  { rewrite Hrb. destruct (Z.gtb_spec rLen 1) as [Hgt|Hle].
    - rewrite (slice_cons_byteAt sig (4 + 1)) by lia.
      rewrite !index_byteAt by lia. cbn [bind DERPadded].
      now destruct (byteAt sig 4 =? 0).
    - replace (4 + rLen) with (4 + 1) by lia.
      now rewrite slice_nil. }
  rewrite Hpad. cbn [bind]. rewrite failif_step.
  destruct (DERPadded rb); [reflexivity|].
  rewrite index_byteAt by lia. cbn [bind]. rewrite failif_step.
  destruct (negb (byteAt sig (4 + rLen) =? 2)); [reflexivity|].
  rewrite failif_step.
  destruct (Z.eqb_spec sLen 0) as [|HsNZ]; [reflexivity|].
  set (sb := slice sig (6 + rLen) (6 + rLen + sLen)).
  assert (Hsb : sb = byteAt sig (6 + rLen)
                     :: slice sig (6 + rLen + 1) (6 + rLen + sLen))
    by (apply slice_cons_byteAt; lia).
  rewrite index_byteAt by lia. cbn [bind]. rewrite failif_step.
  replace (DERNegative sb)
    with (negb (Z.land (byteAt sig (6 + rLen)) 128 =? 0))
    by (rewrite Hsb; reflexivity).
  destruct (negb (Z.land (byteAt sig (6 + rLen)) 128 =? 0)); [reflexivity|].
  assert (HpadS :
    (if sLen >? 1
     then (if byteAt sig (6 + rLen) =? 0
           then b2 <- index sig (7 + rLen);; Ok (Z.land b2 128 =? 0)
           else Ok false)
     else Ok false) = Ok (DERPadded sb)).
  { rewrite Hsb. destruct (Z.gtb_spec sLen 1) as [Hgt|Hle].
    - rewrite (slice_cons_byteAt sig (6 + rLen + 1)) by lia.
      rewrite !index_byteAt by lia. cbn [bind DERPadded].
      replace (6 + rLen + 1) with (7 + rLen) by lia.
      now destruct (byteAt sig (6 + rLen) =? 0).
    - replace (6 + rLen + sLen) with (6 + rLen + 1) by lia.
      now rewrite slice_nil. }
  rewrite HpadS. cbn [bind]. rewrite failif_step.
  destruct (DERPadded sb); [reflexivity|].
  assert (Hbr : is_bytes rb) by now apply is_bytes_slice.
  assert (Hbs : is_bytes sb) by now apply is_bytes_slice.
  pose proof curveN_bound as HN.
  rewrite failif_step.
  destruct (Z.gtb_spec (len (strip_zeros rb)) 32) as [Hlong|Hshort].
  { pose proof (strip_zeros_long rb Hbr Hlong).
    destruct (Z.leb_spec curveN (be_val rb)); [reflexivity|lia]. }
  rewrite SetByteSlice_strip by assumption.
  rewrite failif_step.
  destruct (Z.leb_spec curveN (be_val rb)) as [|HrN]; [reflexivity|].
  pose proof (be_val_bound rb Hbr) as [Hr0 _].
  rewrite Z.mod_small by lia.
  rewrite failif_step. unfold ModNScalar.IsZero.
  destruct (be_val rb =? 0); [reflexivity|].
  rewrite failif_step.
  destruct (Z.gtb_spec (len (strip_zeros sb)) 32) as [Hlong|HshortS].
  { pose proof (strip_zeros_long sb Hbs Hlong).
    destruct (Z.leb_spec curveN (be_val sb)); [reflexivity|lia]. }
  rewrite SetByteSlice_strip by assumption.
  rewrite failif_step.
  destruct (Z.leb_spec curveN (be_val sb)) as [|HsN]; [reflexivity|].
  pose proof (be_val_bound sb Hbs) as [Hs0 _].
  rewrite Z.mod_small by lia.
  rewrite failif_step.
  destruct (be_val sb =? 0); reflexivity.
Qed.

Lemma slice_full {A} (s : list A) : slice s 0 (len s) = s.
Proof.
  unfold slice, len. rewrite Z.sub_0_r, Nat2Z.id. cbn [Z.to_nat skipn].
  apply firstn_all.
Qed.

Lemma slice_split {A} (s : list A) (a b c : Z) :
  0 <= a <= b -> b <= c ->
  slice s a c = slice s a b ++ slice s b c.
Proof.
  intros Hab Hbc. unfold slice.
  replace (Z.to_nat (c - a)) with (Z.to_nat (b - a) + Z.to_nat (c - b))%nat
    by lia.
  replace (Z.to_nat b) with (Z.to_nat (b - a) + Z.to_nat a)%nat by lia.
  rewrite <- skipn_skipn.
  generalize (skipn (Z.to_nat a) s) as l.
  generalize (Z.to_nat (b - a)) as n. generalize (Z.to_nat (c - b)) as m.
  clear. intros m n. induction n as [|n IH]; intros l.
  - reflexivity.
  - destruct l as [|x l].
    + cbn. now rewrite firstn_nil.
    + cbn [Nat.add firstn skipn app]. now rewrite IH.
Qed.

Lemma byteAt_app_right (l0 : list Z) (b : Z) (l1 : list Z) (i : Z) :
  i = len l0 -> byteAt (l0 ++ b :: l1) i = b.
Proof.
  intros ->. unfold byteAt, len. rewrite Nat2Z.id.
  rewrite app_nth2, Nat.sub_diag by lia. reflexivity.
Qed.

(** The layout of an input that passes the structural checks. *)
Lemma DER_layout (sig : list Z) :
  let rLen := byteAt sig 3 in
  let sLen := byteAt sig (5 + rLen) in
  8 <= len sig -> 0 <= rLen -> 0 <= sLen ->
  6 + rLen + sLen = len sig ->
  sig = [byteAt sig 0; byteAt sig 1; byteAt sig 2; rLen] ++ DERFieldR sig ++
        [byteAt sig (4 + rLen); sLen] ++ DERFieldS sig.
Proof.
  intros rLen sLen H8 Hr Hs Hlen.
  unfold DERFieldR, DERFieldS. fold rLen. fold sLen.
  rewrite <- (slice_full sig) at 1.
  rewrite (slice_cons_byteAt sig 0) by lia.
  rewrite (slice_cons_byteAt sig (0 + 1)) by lia.
  rewrite (slice_cons_byteAt sig (0 + 1 + 1)) by lia.
  rewrite (slice_cons_byteAt sig (0 + 1 + 1 + 1)) by lia.
  cbn [Z.add Pos.add Pos.succ app]. fold rLen.
  rewrite (slice_split sig 4 (4 + rLen) (len sig)) by lia.
  rewrite (slice_cons_byteAt sig (4 + rLen)) by lia.
  rewrite (slice_cons_byteAt sig (4 + rLen + 1)) by lia.
  replace (4 + rLen + 1 + 1) with (6 + rLen) by lia.
  replace (4 + rLen + 1) with (5 + rLen) by lia.
  fold sLen. rewrite <- Hlen. reflexivity.
Qed.

Ltac len_simpl :=
  repeat rewrite ?len_app, ?len_cons;
  change (@len Z []) with 0.

(** The structural fields of an encoding. *)
Lemma DEREncoding_fields (rb sb : list Z) :
  let sig := DEREncoding rb sb in
  len sig = 6 + len rb + len sb /\
  byteAt sig 0 = 0x30 /\ byteAt sig 1 = 4 + len rb + len sb /\
  byteAt sig 2 = 0x02 /\ byteAt sig 3 = len rb /\
  byteAt sig (4 + len rb) = 0x02 /\ byteAt sig (5 + len rb) = len sb /\
  DERFieldR sig = rb /\ DERFieldS sig = sb.
Proof.
  intros sig.
  assert (H3 : byteAt sig 3 = len rb) by reflexivity.
  assert (H5 : byteAt sig (5 + len rb) = len sb).
  { subst sig. unfold DEREncoding.
    change ([asn1SequenceID; 4 + len rb + len sb; asn1IntegerID; len rb] ++
            rb ++ [asn1IntegerID; len sb] ++ sb)
      with ([asn1SequenceID; 4 + len rb + len sb; asn1IntegerID; len rb] ++
            rb ++ [asn1IntegerID] ++ len sb :: sb).
    rewrite !app_assoc. apply byteAt_app_right.
    len_simpl. lia. }
  repeat split; try reflexivity.
  - subst sig. unfold DEREncoding. len_simpl. lia.
  - subst sig. unfold DEREncoding. rewrite app_assoc.
    apply byteAt_app_right. len_simpl. lia.
  - exact H5.
  - unfold DERFieldR. rewrite H3. subst sig. unfold DEREncoding.
    apply slice_app; [reflexivity|lia].
  - unfold DERFieldS. rewrite H3, H5. subst sig. unfold DEREncoding.
    rewrite <- (app_nil_r sb) at 3. rewrite !app_assoc. rewrite <- app_assoc.
    apply slice_app; len_simpl; lia.
Qed.

Lemma len_pos_nonnil {A} (l : list A) : l <> [] -> 1 <= len l.
Proof. destruct l; [congruence|]. rewrite len_cons. pose proof (len_nonneg l). lia. Qed.

Lemma DERFirstViolation_encoding (rb sb : list Z) :
  len (DEREncoding rb sb) <= maxSigLen ->
  rb <> [] -> DERNegative rb = false -> DERPadded rb = false ->
  sb <> [] -> DERNegative sb = false -> DERPadded sb = false ->
  DERFirstViolation (DEREncoding rb sb) = DERRangeCheck rb sb.
Proof.
  intros Hmax Hr0 Hr1 Hr2 Hs0 Hs1 Hs2.
  destruct (DEREncoding_fields rb sb)
    as (Hlen & B0 & B1 & B2 & B3 & B4 & B5 & FR & FS).
  unfold DERFieldR, DERFieldS in FR, FS.
  apply len_pos_nonnil in Hr0. apply len_pos_nonnil in Hs0.
  unfold maxSigLen in Hmax.
  unfold DERFirstViolation. cbv zeta.
  rewrite B3, B5, B0, B1, B2, B4. rewrite B3 in FR, FS. rewrite B5 in FS.
  rewrite FR, FS, Hr1, Hr2, Hs1, Hs2, Hlen.
  destruct (Z.ltb_spec (6 + len rb + len sb) 8); [lia|].
  destruct (Z.gtb_spec (6 + len rb + len sb) 72); [lia|].
  rewrite !Z.eqb_refl. cbn [negb].
  destruct (Z.eqb_spec (4 + len rb + len sb) (6 + len rb + len sb - 2));
    [|lia].
  destruct (Z.geb_spec (4 + len rb) (6 + len rb + len sb)); [lia|].
  destruct (Z.geb_spec (5 + len rb) (6 + len rb + len sb)); [lia|].
  destruct (Z.eqb_spec (len rb) 0); [lia|].
  destruct (Z.eqb_spec (len sb) 0); [lia|].
  reflexivity.
Qed.

Lemma DERFirstViolation_None (sig : list Z) :
  is_bytes sig ->
  DERFirstViolation sig = None <-> DERWellFormed sig.
Proof.
  intros Hb. split.
  - intros H. unfold DERFirstViolation in H. cbv zeta in H.
    assert (FR : DERFieldR sig = slice sig 4 (4 + byteAt sig 3))
      by reflexivity.
    assert (FS : DERFieldS sig
                 = slice sig (6 + byteAt sig 3)
                     (6 + byteAt sig 3 + byteAt sig (5 + byteAt sig 3)))
      by reflexivity.
    pose proof (DER_layout sig) as Hlay. cbv zeta in Hlay.
    rewrite <- FR, <- FS in H.
    assert (HrLen : 0 <= byteAt sig 3 < 256)
      by apply (is_bytes_byteAt sig 3 Hb).
    remember (byteAt sig 3) as rLen eqn:HrL.
    assert (HsLen : 0 <= byteAt sig (5 + rLen) < 256)
      by apply (is_bytes_byteAt sig _ Hb).
    remember (byteAt sig (5 + rLen)) as sLen eqn:HsL.
    assert (BR : 0 <= be_val (DERFieldR sig)).
    { apply be_val_bound. unfold DERFieldR. now apply is_bytes_slice. }
    assert (BS : 0 <= be_val (DERFieldS sig)).
    { apply be_val_bound. unfold DERFieldS. now apply is_bytes_slice. }
    repeat match type of H with
           | (if ?c then Some _ else _) = None =>
               let E := fresh "E" in destruct c eqn:E; [discriminate|]
           end.
    apply Z.ltb_ge in E. rewrite Z.gtb_ltb in E0. apply Z.ltb_ge in E0.
    apply negb_false_iff, Z.eqb_eq in E1, E2, E5, E6, E10.
    apply Z.eqb_neq in E7, E11, E15, E17.
    apply Z.leb_gt in E14, E16.
    specialize (Hlay E (proj1 HrLen) (proj1 HsLen) E5).
    assert (LR : len (DERFieldR sig) = rLen)
      by (rewrite FR, len_slice; lia).
    assert (LS : len (DERFieldS sig) = sLen)
      by (rewrite FS, len_slice; lia).
    exists (DERFieldR sig), (DERFieldS sig).
    split; [|split; [unfold minSigLen, maxSigLen; lia|]].
    { rewrite Hlay at 1. unfold DEREncoding.
      rewrite E1, E2, E6, E10, LR, LS.
      unfold asn1SequenceID, asn1IntegerID.
      replace (len sig - 2) with (4 + rLen + sLen) by lia. reflexivity. }
    repeat split; try assumption; try lia.
    + intros Hnil. rewrite Hnil in LR. cbn in LR. lia.
    + intros Hnil. rewrite Hnil in LS. cbn in LS. lia.
  - intros (rb & sb & -> & [Hmin Hmax] & Hr0 & Hr1 & Hr2 & Hs0 & Hs1 & Hs2
            & Hrv & Hsv).
    rewrite DERFirstViolation_encoding by assumption.
    unfold DERRangeCheck.
    destruct (Z.leb_spec curveN (be_val rb)); [lia|].
    destruct (Z.eqb_spec (be_val rb) 0); [lia|].
    destruct (Z.leb_spec curveN (be_val sb)); [lia|].
    destruct (Z.eqb_spec (be_val sb) 0); [lia|].
    reflexivity.
Qed.

Lemma is_bytesb_sound (l : list Z) : is_bytesb l = true -> is_bytes l.
Proof.
  unfold is_bytesb, is_bytes. rewrite forallb_forall, Forall_forall.
  intros H x Hx. specialize (H x Hx). unfold is_byte. lia.
Qed.

(** C9.  On every byte string the parser agrees with the checks of the
    specification (first failing check decides the error kind, and no
    index is ever out of range); it accepts exactly the well-formed
    encodings; and an otherwise well-formed input whose R equals the
    group order is rejected with [ErrSigRTooBig]. *)
Theorem ParseDERSignature_spec (sig : list Z) :
  is_bytes sig ->
  ParseDERSignature sig =
    match DERFirstViolation sig with
    | Some e => Err e
    | None => Ok (NewSignature (be_val (DERFieldR sig))
                               (be_val (DERFieldS sig)))
    end /\
  ((exists s, ParseDERSignature sig = Ok s) <-> DERWellFormed sig) /\
  (forall rb sb,
     sig = DEREncoding rb sb -> len sig <= maxSigLen ->
     rb <> [] -> DERNegative rb = false -> DERPadded rb = false ->
     sb <> [] -> DERNegative sb = false -> DERPadded sb = false ->
     be_val rb = curveN ->
     ParseDERSignature sig = Err ErrSigRTooBig).
Proof.
  intros Hb. pose proof (ParseDER_decision sig Hb) as Hd.
  split; [exact Hd|split].
  - rewrite <- (DERFirstViolation_None sig Hb). rewrite Hd.
    destruct (DERFirstViolation sig); split.
    + intros [s Hs]; discriminate.
    + discriminate.
    + reflexivity.
    + eauto.
  - intros rb sb -> Hmax Hr0 Hr1 Hr2 Hs0 Hs1 Hs2 Hn.
    rewrite Hd, DERFirstViolation_encoding by assumption.
    unfold DERRangeCheck. rewrite Hn, Z.leb_refl. reflexivity.
Qed.

(** ** DER serialization *)

Lemma canonTrim_spec (l : list Z) :
  l <> [] -> DERNegative l = false ->
  let c := canonTrim l in
  c <> [] /\ DERNegative c = false /\ DERPadded c = false /\
  be_val c = be_val l /\ len c <= len l /\ (is_bytes l -> is_bytes c).
Proof.
  induction l as [|b0 t IH]; [congruence|].
  intros _ Hneg. destruct t as [|b1 t].
  - cbn. repeat split; auto; try lia. discriminate.
  - cbn [canonTrim].
    destruct ((b0 =? 0) && (Z.land b1 128 =? 0)) eqn:E.
    + apply andb_prop in E. destruct E as [E0 E1].
      apply Z.eqb_eq in E0. subst b0.
      destruct IH as (I1 & I2 & I3 & I4 & I5 & I6).
      * discriminate.
      * cbn. now rewrite E1.
      * cbv zeta in *.
        split; [exact I1|split; [exact I2|split; [exact I3|]]].
        split; [|split].
        -- transitivity (be_val (b1 :: t)); [exact I4|].
           rewrite (be_val_cons 0). lia.
        -- apply Z.le_trans with (len (b1 :: t)); [exact I5|].
           rewrite (len_cons 0). lia.
        -- intros Hl. apply I6. now inversion Hl.
    + cbv zeta.
      split; [discriminate|split; [exact Hneg|split; [exact E|]]].
      split; [reflexivity|split; [lia|auto]].
Qed.

Lemma Serialize_encoding (sig : Signature) :
  let lowS := if ModNScalar.IsOverHalfOrder (sig_s sig)
              then ModNScalar.Negate (sig_s sig) else sig_s sig in
  let rb := canonTrim (0 :: be_fixed 32 (sig_r sig)) in
  let sb := canonTrim (0 :: be_fixed 32 lowS) in
  Serialize sig = DEREncoding rb sb /\
  is_bytes rb /\ rb <> [] /\ DERNegative rb = false /\ DERPadded rb = false /\
  is_bytes sb /\ sb <> [] /\ DERNegative sb = false /\ DERPadded sb = false /\
  be_val rb = be_val (be_fixed 32 (sig_r sig)) /\
  be_val sb = be_val (be_fixed 32 lowS) /\
  len rb <= 33 /\ len sb <= 33.
Proof.
  intros lowS rb sb.
  destruct (canonTrim_spec (0 :: be_fixed 32 (sig_r sig)))
    as (R1 & R2 & R3 & R4 & R5 & R6); [discriminate|reflexivity|].
  destruct (canonTrim_spec (0 :: be_fixed 32 lowS))
    as (S1 & S2 & S3 & S4 & S5 & S6); [discriminate|reflexivity|].
  cbv zeta in *. fold rb in R1, R2, R3, R4, R5, R6.
  fold sb in S1, S2, S3, S4, S5, S6.
  rewrite len_cons, len_be_fixed in R5, S5.
  rewrite (be_val_cons 0) in R4, S4.
  assert (Bz : is_byte 0) by (unfold is_byte; lia).
  pose proof (len_pos_nonnil rb R1). pose proof (len_pos_nonnil sb S1).
  split.
  { unfold Serialize, DEREncoding, ModNScalar.PutBytesUnchecked.
    cbv zeta. fold lowS. fold rb. fold sb.
    rewrite !Z.mod_small by lia.
    replace (6 + len rb + len sb - 2) with (4 + len rb + len sb) by lia.
    reflexivity. }
  split; [apply R6; constructor; [exact Bz|apply is_bytes_be_fixed]|].
  split; [exact R1|split; [exact R2|split; [exact R3|]]].
  split; [apply S6; constructor; [exact Bz|apply is_bytes_be_fixed]|].
  split; [exact S1|split; [exact S2|split; [exact S3|]]].
  split; [lia|split; [lia|split; lia]].
Qed.

(** C3.  For [r], [s] in [1, n-1], [Serialize] emits the low-S form
    ([n - s] in place of [s] when [s > n/2], that is [min s (n - s)]),
    and [ParseDERSignature] accepts the serialized bytes and returns
    the signature [(r, min s (n - s))], equal (in the sense of
    [IsEqual]) to the original with its S replaced by the low-S form. *)
Theorem DER_roundtrip (sig : Signature) :
  1 <= sig_r sig < curveN -> 1 <= sig_s sig < curveN ->
  let lowS := if curveN / 2 <? sig_s sig
              then curveN - sig_s sig else sig_s sig in
  lowS = Z.min (sig_s sig) (curveN - sig_s sig) /\
  1 <= lowS <= curveN / 2 /\
  DERWellFormed (Serialize sig) /\
  be_val (DERFieldR (Serialize sig)) = sig_r sig /\
  be_val (DERFieldS (Serialize sig)) = lowS /\
  ParseDERSignature (Serialize sig) = Ok (NewSignature (sig_r sig) lowS) /\
  IsEqual (NewSignature (sig_r sig) lowS)
          (mkSignature (sig_r sig) lowS (sig_v sig)) = true.
Proof.
  intros Hr Hs lowS.
  pose proof curveN_odd as Hodd. pose proof curveN_bound as HN.
  assert (Hlow : lowS = Z.min (sig_s sig) (curveN - sig_s sig) /\
                 1 <= lowS <= curveN / 2).
  { subst lowS. destruct (Z.ltb_spec (curveN / 2) (sig_s sig)); lia. }
  destruct Hlow as [Hmin Hrange].
  destruct (Serialize_encoding sig)
    as (E & Br & R1 & R2 & R3 & Bs & S1 & S2 & S3 & Vr & Vs & Lr & Ls).
  cbv zeta in *.
  assert (HlowS : (if ModNScalar.IsOverHalfOrder (sig_s sig)
                   then ModNScalar.Negate (sig_s sig) else sig_s sig) = lowS).
  { subst lowS. unfold ModNScalar.IsOverHalfOrder.
    destruct (curveN / 2 <? sig_s sig); [|reflexivity].
    apply ModN_Negate_pos. lia. }
  rewrite HlowS in *.
  set (rb := canonTrim (0 :: be_fixed 32 (sig_r sig))) in *.
  set (sb := canonTrim (0 :: be_fixed 32 lowS)) in *.
  rewrite (be_val_be_fixed_small 32) in Vr, Vs
    by (change (Z.of_nat 32) with 32; lia).
  destruct (DEREncoding_fields rb sb)
    as (Hlen & _ & _ & _ & _ & _ & _ & FR & FS).
  cbv zeta in *.
  pose proof (len_pos_nonnil rb R1). pose proof (len_pos_nonnil sb S1).
  assert (Hb : is_bytes (Serialize sig)).
  { rewrite E. unfold DEREncoding.
    assert (is_byte asn1SequenceID /\ is_byte asn1IntegerID /\
            is_byte (4 + len rb + len sb) /\ is_byte (len rb) /\
            is_byte (len sb))
      as (? & ? & ? & ? & ?)
      by (unfold is_byte, asn1SequenceID, asn1IntegerID; lia).
    repeat (apply Forall_app; split); try assumption;
      repeat (constructor; try assumption). }
  assert (Hwf : DERWellFormed (Serialize sig)).
  { exists rb, sb. rewrite E at 1. rewrite E, Hlen.
    unfold minSigLen, maxSigLen.
    repeat (split; [first [reflexivity|assumption|lia]|]). lia. }
  rewrite E in *. rewrite FR, FS.
  pose proof (ParseDER_decision _ Hb) as Hd.
  apply (DERFirstViolation_None _ Hb) in Hwf as Hnone.
  rewrite Hnone, FR, FS, Vr, Vs in Hd.
  repeat (split; [first [assumption|lia]|]).
  unfold IsEqual, ModNScalar.Equals. cbn [sig_r sig_s NewSignature].
  now rewrite !Z.eqb_refl.
Qed.

(** ** The balanced length-two representation *)

Lemma be_val_big_Bytes (v : Z) : be_val (big_Bytes v) = Z.abs v.
Proof.
  unfold big_Bytes. rewrite be_val_strip_zeros.
  apply be_val_be_fixed_small.
  pose proof (Z.abs_nonneg v) as Ha. split; [exact Ha|].
  set (a := Z.abs v) in *.
  rewrite Nat2Z.inj_succ, Z2Nat.id
    by (apply Z.div_pos; [apply Z.log2_nonneg|lia]).
  change 256 with (2 ^ 8). rewrite <- Z.pow_mul_r
    by (try lia; pose proof (Z.log2_nonneg a);
        pose proof (Z.div_pos (Z.log2 a) 8); lia).
  destruct (Z.eq_dec a 0) as [->|Hnz].
  - reflexivity.
  - pose proof (Z.log2_spec a ltac:(lia)) as [_ Hlt].
    eapply Z.lt_le_trans; [exact Hlt|].
    apply Z.pow_le_mono_r; [lia|].
    pose proof (Z.div_mod (Z.log2 a) 8 ltac:(lia)).
    pose proof (Z.mod_pos_bound (Z.log2 a) 8 ltac:(lia)). lia.
Qed.

Lemma big_Sign_abs (v : Z) : big_Sign v * Z.abs v = v.
Proof. unfold big_Sign. rewrite Z.mul_comm. apply Z.abs_sgn. Qed.

Lemma endomorphism_basis :
  (endomorphismA1 + endomorphismB1 * endomorphismLambda) mod curveN = 0 /\
  (endomorphismA2 + endomorphismB2 * endomorphismLambda) mod curveN = 0.
Proof. split; reflexivity. Qed.

(** C5.  The decomposition returned by [splitK] satisfies
    [sign1*k1 + sign2*k2*lambda = k (mod n)], with [k1], [k2] the
    integers encoded by the returned big-endian slices; for [k] in
    [0, n) the left-hand side reduces to [k] itself. *)
Theorem splitK_congruence (k : list Z) :
  let '(k1, k2, signK1, signK2) := splitK k in
  (signK1 * be_val k1 + signK2 * be_val k2 * endomorphismLambda) mod curveN
  = be_val k mod curveN /\
  (0 <= be_val k < curveN ->
   (signK1 * be_val k1 + signK2 * be_val k2 * endomorphismLambda) mod curveN
   = be_val k).
Proof.
  unfold splitK. cbv zeta.
  set (K := be_val k).
  set (c1 := endomorphismB2 * K / curveN).
  set (c2 := endomorphismB1 * K / curveN).
  rewrite !be_val_big_Bytes, !big_Sign_abs.
  destruct endomorphism_basis as [H1 H2].
  apply Z.mod_divide in H1, H2; try discriminate.
  destruct H1 as [m1 H1]. destruct H2 as [m2 H2].
  assert (E : K - c1 * endomorphismA1 + c2 * endomorphismA2 +
              (c2 * endomorphismB2 - c1 * endomorphismB1) * endomorphismLambda
              = K + (c2 * m2 - c1 * m1) * curveN).
  { transitivity
      (K - c1 * (endomorphismA1 + endomorphismB1 * endomorphismLambda)
         + c2 * (endomorphismA2 + endomorphismB2 * endomorphismLambda)).
    - ring.
    - rewrite H1, H2. ring. }
  assert (Hmod : (K - c1 * endomorphismA1 + c2 * endomorphismA2 +
                  (c2 * endomorphismB2 - c1 * endomorphismB1)
                  * endomorphismLambda) mod curveN = K mod curveN).
  { rewrite E. apply Z.mod_add. discriminate. }
  split; [exact Hmod|].
  intros HK. rewrite Hmod. now apply Z.mod_small.
Qed.

(** ** Non-adjacent form *)

Lemma in_byteRange (b : Z) : 0 <= b < 256 -> In b byteRange.
Proof.
  intros H. unfold byteRange. apply in_map_iff.
  exists (Z.to_nat b). split; [lia|]. apply in_seq. lia.
Qed.

Lemma nafDigits_ok_all :
  forallb (fun kb =>
    forallb (fun carry =>
      forallb (fun nextWord => nafDigits_ok kb carry nextWord) byteRange)
      [0; 1]) byteRange = true.
Proof. vm_compute. reflexivity. Qed.

Lemma nafDigits_facts (kb carry nextWord : Z) :
  0 <= kb < 256 -> carry = 0 \/ carry = 1 -> 0 <= nextWord < 256 ->
  nafDigits_ok kb carry nextWord = true.
Proof.
  intros Hk Hc Hn. pose proof nafDigits_ok_all as H.
  rewrite forallb_forall in H. specialize (H kb (in_byteRange kb Hk)).
  rewrite forallb_forall in H.
  assert (Hin : In carry [0; 1]) by (destruct Hc; subst; cbn; auto).
  specialize (H carry Hin). rewrite forallb_forall in H.
  exact (H nextWord (in_byteRange nextWord Hn)).
Qed.

Lemma testbit_byte_cons (D d i : Z) :
  0 <= d < 256 -> 0 <= i ->
  Z.testbit (D * 256 + d) i
  = if i <? 8 then Z.testbit d i else Z.testbit D (i - 8).
Proof.
  intros Hd Hi. destruct (Z.ltb_spec i 8) as [Hlt|Hge].
  - rewrite <- (Z.mod_pow2_bits_low (D * 256 + d) 8 i) by lia.
    change (2 ^ 8) with 256.
    rewrite Z.add_comm, Z.mod_add by lia.
    now rewrite Z.mod_small by lia.
  - replace i with ((i - 8) + 8) at 1 by lia.
    rewrite <- Z.div_pow2_bits by lia.
    change (2 ^ 8) with 256.
    rewrite Z.add_comm, Z.div_add by lia.
    now rewrite Z.div_small by lia.
Qed.

Lemma lor_byte_range (p ng : Z) :
  0 <= p < 256 -> 0 <= ng < 256 -> 0 <= Z.lor p ng < 256.
Proof.
  intros Hp Hn.
  split; [apply Z.lor_nonneg; lia|].
  destruct (Z.eq_dec (Z.lor p ng) 0) as [->|Hnz]; [lia|].
  assert (0 < Z.lor p ng)
    by (pose proof (proj2 (Z.lor_nonneg p ng) ltac:(lia)); lia).
  apply (Z.log2_lt_pow2 _ 8); [assumption|].
  rewrite Z.log2_lor by lia.
  destruct (Z.eq_dec p 0) as [->|]; destruct (Z.eq_dec ng 0) as [->|];
    cbn [Z.log2]; try lia.
  + apply Z.max_lub_lt; [reflexivity|]. apply Z.log2_lt_pow2; lia.
  + apply Z.max_lub_lt; [|reflexivity]. apply Z.log2_lt_pow2; lia.
  + apply Z.max_lub_lt; apply Z.log2_lt_pow2; lia.
Qed.

Lemma lor_byte_cons (P N p ng : Z) :
  0 <= p < 256 -> 0 <= ng < 256 ->
  Z.lor (P * 256 + p) (N * 256 + ng) = Z.lor P N * 256 + Z.lor p ng.
Proof.
  intros Hp Hn.
  pose proof (lor_byte_range p ng Hp Hn) as Hd.
  apply Z.bits_inj'. intros i Hi.
  rewrite Z.lor_spec, !testbit_byte_cons by assumption.
  destruct (i <? 8); now rewrite Z.lor_spec.
Qed.

Lemma nonadjacent_byte (d : Z) :
  Z.land d (Z.shiftr d 1) = 0 -> nonadjacent d.
Proof.
  intros H i Hi [H1 H2].
  assert (E : Z.testbit (Z.land d (Z.shiftr d 1)) i = true)
    by (rewrite Z.land_spec, Z.shiftr_spec, H1, H2 by lia; reflexivity).
  rewrite H, Z.bits_0 in E. discriminate.
Qed.

Lemma nonadjacent_cons (D d : Z) :
  0 <= d < 256 ->
  nonadjacent D -> nonadjacent d ->
  ~ (Z.testbit d 7 = true /\ Z.testbit D 0 = true) ->
  nonadjacent (D * 256 + d).
Proof.
  intros Hd HD Hd' Hb i Hi [H1 H2].
  rewrite testbit_byte_cons in H1, H2 by lia.
  destruct (Z.ltb_spec i 8) as [Hlt|Hge];
    destruct (Z.ltb_spec (i + 1) 8) as [Hlt'|Hge']; try lia.
  - apply (Hd' i Hi). auto.
  - assert (i = 7) by lia. subst i. apply Hb. auto.
  - apply (HD (i - 8) ltac:(lia)).
    replace (i - 8 + 1) with (i + 1 - 8) by lia. auto.
Qed.

Lemma nonadjacent_0 : nonadjacent 0.
Proof. intros i Hi [H _]. rewrite Z.bits_0 in H. discriminate. Qed.

Lemma upd_split (a : list Z) (i : nat) (v : Z) :
  (i < length a)%nat -> upd a i v = firstn i a ++ v :: skipn (S i) a.
Proof.
  revert i. induction a as [|x a IH]; intros i Hi; simpl in Hi; [lia|].
  destruct i as [|i]; [reflexivity|].
  cbn [upd firstn skipn app]. f_equal. apply IH. lia.
Qed.

Lemma store_ok (a : list Z) (i : nat) (v : Z) :
  (i < length a)%nat ->
  store a (Z.of_nat i) v = Ok (firstn i a ++ v :: skipn (S i) a).
Proof.
  intros Hi. unfold store, len.
  destruct (Z.leb_spec 0 (Z.of_nat i)); [|lia].
  destruct (Z.ltb_spec (Z.of_nat i) (Z.of_nat (length a))); [|lia].
  cbn [andb]. now rewrite Nat2Z.id, upd_split.
Qed.

Lemma firstn_succ_nth (k : list Z) (m : nat) :
  (m < length k)%nat -> firstn (S m) k = firstn m k ++ [nth m k 0].
Proof.
  revert m. induction k as [|x k IH]; intros m Hm; simpl in Hm; [lia|].
  destruct m as [|m]; [reflexivity|].
  cbn [firstn nth app]. f_equal. apply IH. lia.
Qed.

Lemma is_bytes_nth (k : list Z) (m : nat) : is_bytes k -> is_byte (nth m k 0).
Proof.
  intros H. replace m with (Z.to_nat (Z.of_nat m)) by lia.
  now apply (is_bytes_byteAt k (Z.of_nat m)).
Qed.

Lemma nafDigits_props (kb carry nextWord : Z) :
  0 <= kb < 256 -> carry = 0 \/ carry = 1 -> 0 <= nextWord < 256 ->
  let '(p, ng, c) := nafDigits kb carry nextWord in
  0 <= p < 256 /\ 0 <= ng < 256 /\ (c = 0 \/ c = 1) /\
  p - ng + 256 * c = kb + carry /\
  nonadjacent (Z.lor p ng) /\
  Z.testbit (Z.lor p ng) 0 = Z.odd (kb + carry) /\
  (Z.testbit (Z.lor p ng) 7 = true -> Z.even (nextWord + c) = true) /\
  (nextWord = 0 -> c = 0 -> kb <> 0 -> p <> 0).
Proof.
  intros Hkb Hc Hnw.
  pose proof (nafDigits_facts kb carry nextWord Hkb Hc Hnw) as F.
  unfold nafDigits_ok in F.
  destruct (nafDigits kb carry nextWord) as [[p ng] c].
  cbv zeta in F.
  repeat (apply andb_prop in F; destruct F as [F ?]).
  repeat match goal with
         | H : (_ <=? _) = true |- _ => apply Z.leb_le in H
         | H : (_ <? _) = true |- _ => apply Z.ltb_lt in H
         | H : (_ =? _) = true |- _ => apply Z.eqb_eq in H
         | H : Bool.eqb _ _ = true |- _ => apply eqb_prop in H
         end.
  split; [lia|]. split; [lia|].
  split. { apply orb_prop in H4. rewrite !Z.eqb_eq in H4. exact H4. }
  split; [assumption|].
  split; [now apply nonadjacent_byte|].
  split; [assumption|].
  split.
  - intros E. now rewrite E in H0.
  - intros -> -> Hnz. apply Z.eqb_neq in Hnz.
    rewrite Hnz in H. cbn in H.
    apply negb_true_iff, Z.eqb_neq in H. exact H.
Qed.

Section NafLoop.

Variable k : list Z.
Hypothesis Hk : is_bytes k.

Lemma nafLoop_spec (n : nat) :
  forall (pos neg : list Z) (c : Z),
  (n <= length k)%nat -> (n < length pos)%nat -> (n < length neg)%nat ->
  c = 0 \/ c = 1 ->
  exists ps ns c',
    nafLoop k n pos neg c
    = Ok (firstn 1 pos ++ ps ++ skipn (S n) pos,
          firstn 1 neg ++ ns ++ skipn (S n) neg, c') /\
    length ps = n /\ length ns = n /\ is_bytes ps /\ is_bytes ns /\
    (c' = 0 \/ c' = 1) /\
    be_val ps - be_val ns + c' * 256 ^ Z.of_nat n
    = be_val (firstn n k) + c /\
    nonadjacent (Z.lor (be_val ps) (be_val ns)) /\
    ((1 <= n)%nat ->
     Z.testbit (Z.lor (be_val ps) (be_val ns)) 0
     = Z.odd (nth (n - 1) k 0 + c) /\
     (Z.testbit (Z.lor (be_val ps) (be_val ns)) (8 * Z.of_nat n - 1) = true
      -> c' = 0) /\
     (nth 0 k 0 <> 0 -> c' = 0 -> hd 0 ps <> 0)).
Proof.
  induction n as [|m IH]; intros pos neg c Hnk Hnp Hnn Hc.
  - exists [], [], c. cbn [nafLoop app].
    destruct pos as [|x pos]; [simpl in Hnp; lia|].
    destruct neg as [|y neg]; [simpl in Hnn; lia|].
    cbn [firstn skipn app].
    split; [reflexivity|].
    split; [reflexivity|]. split; [reflexivity|].
    split; [constructor|]. split; [constructor|].
    split; [assumption|].
    split; [cbn; lia|].
    split; [apply nonadjacent_0|].
    intros H; lia.
  - cbn [nafLoop].
    rewrite index_byteAt by (unfold len; lia). cbn [bind].
    set (kb := byteAt k (Z.of_nat m)).
    set (nextWord :=
           if Z.of_nat m >? 0 then byteAt k (Z.of_nat m - 1) else 0).
    assert (Hnw : (if Z.of_nat m >? 0
                   then index k (Z.of_nat m - 1) else Ok 0) = Ok nextWord).
    { subst nextWord. destruct (Z.gtb_spec (Z.of_nat m) 0); [|reflexivity].
      apply index_byteAt. unfold len. lia. }
    rewrite Hnw. cbn [bind].
    assert (Hkb : 0 <= kb < 256) by apply (is_bytes_byteAt k _ Hk).
    assert (Hnwb : 0 <= nextWord < 256).
    { subst nextWord. destruct (Z.of_nat m >? 0); [|lia].
      apply (is_bytes_byteAt k _ Hk). }
    pose proof (nafDigits_props kb c nextWord Hkb Hc Hnwb) as F.
    destruct (nafDigits kb c nextWord) as [[p ng] c1].
    destruct F as (Fp & Fn & Fc & Fsum & Fna & Fb0 & Fb7 & Fhd).
    replace (Z.of_nat m + 1) with (Z.of_nat (S m)) by lia.
    rewrite !store_ok by assumption. cbn [bind].
    set (pos1 := firstn (S m) pos ++ p :: skipn (S (S m)) pos).
    set (neg1 := firstn (S m) neg ++ ng :: skipn (S (S m)) neg).
    assert (Lp : length pos1 = length pos).
    { subst pos1. rewrite length_app, length_firstn. cbn [length].
      rewrite length_skipn. lia. }
    assert (Ln : length neg1 = length neg).
    { subst neg1. rewrite length_app, length_firstn. cbn [length].
      rewrite length_skipn. lia. }
    destruct (IH pos1 neg1 c1 ltac:(lia) ltac:(lia) ltac:(lia) Fc)
      as (ps1 & ns1 & c' & Hrun & Lps & Lns & Bps & Bns & Hc' & Hsum
          & Hna & Hrest).
    exists (ps1 ++ [p]), (ns1 ++ [ng]), c'.
    assert (F1 : forall (a : list Z) (v : Z),
               (S m < length a)%nat ->
               firstn 1 (firstn (S m) a ++ v :: skipn (S (S m)) a)
               = firstn 1 a /\
               skipn (S m) (firstn (S m) a ++ v :: skipn (S (S m)) a)
               = v :: skipn (S (S m)) a).
    { intros a v Ha. split.
      - destruct a as [|x a]; [simpl in Ha; lia|]. reflexivity.
      - rewrite skipn_app, length_firstn.
        replace (Nat.min (S m) (length a)) with (S m) by lia.
        rewrite Nat.sub_diag.
        rewrite (skipn_all2 (firstn (S m) a))
          by (rewrite length_firstn; lia).
        reflexivity. }
    destruct (F1 pos p Hnp) as [Fp1 Fp2].
    destruct (F1 neg ng Hnn) as [Fn1 Fn2].
    fold pos1 in Fp1, Fp2. fold neg1 in Fn1, Fn2.
    rewrite Fp1, Fp2, Fn1, Fn2 in Hrun.
    assert (Bp : is_byte p) by exact Fp.
    assert (Bn : is_byte ng) by exact Fn.
    pose proof (be_val_bound ps1 Bps) as Rps.
    pose proof (be_val_bound ns1 Bns) as Rns.
    assert (Vp : be_val (ps1 ++ [p]) = be_val ps1 * 256 + p)
      by (rewrite be_val_app; cbn; lia).
    assert (Vn : be_val (ns1 ++ [ng]) = be_val ns1 * 256 + ng)
      by (rewrite be_val_app; cbn; lia).
    assert (Vk : be_val (firstn (S m) k)
                 = be_val (firstn m k) * 256 + kb).
    { rewrite firstn_succ_nth by lia. rewrite be_val_app.
      subst kb. unfold byteAt. rewrite Nat2Z.id. cbn. lia. }
    assert (Vl : Z.lor (be_val (ps1 ++ [p])) (be_val (ns1 ++ [ng]))
                 = Z.lor (be_val ps1) (be_val ns1) * 256 + Z.lor p ng)
      by (rewrite Vp, Vn; now apply lor_byte_cons).
    pose proof (lor_byte_range p ng Fp Fn) as Hd.
    set (D1 := Z.lor (be_val ps1) (be_val ns1)) in *.
    set (d := Z.lor p ng) in *.
    assert (Hm0 : m = 0%nat -> D1 = 0 /\ c' = c1 /\ ps1 = []).
    { intros ->. destruct ps1; [|discriminate]. destruct ns1; [|discriminate].
      split; [reflexivity|]. split; [|reflexivity].
      cbn [nafLoop] in Hrun. inversion Hrun. reflexivity. }
    assert (Hnw' : (1 <= m)%nat -> nextWord = nth (m - 1) k 0).
    { intros H1. subst nextWord.
      destruct (Z.gtb_spec (Z.of_nat m) 0); [|lia].
      unfold byteAt. f_equal. lia. }
    split.
    { rewrite Hrun. rewrite <- !app_assoc. reflexivity. }
    split; [rewrite length_app; cbn; lia|].
    split; [rewrite length_app; cbn; lia|].
    split; [apply Forall_app; split; [assumption|now constructor]|].
    split; [apply Forall_app; split; [assumption|now constructor]|].
    split; [assumption|].
    split.
    { rewrite Vp, Vn, Vk, Nat2Z.inj_succ, Z.pow_succ_r by lia. lia. }
    rewrite Vl.
    split.
    { apply nonadjacent_cons; try assumption.
      intros [T7 T0].
      destruct m as [|m'].
      - destruct (Hm0 eq_refl) as (E & _ & _). rewrite E in T0.
        rewrite Z.bits_0 in T0. discriminate.
      - destruct (Hrest ltac:(lia)) as (R0 & _ & _).
        rewrite R0, <- Hnw' in T0 by lia.
        specialize (Fb7 T7). rewrite <- Z.negb_odd, T0 in Fb7.
        discriminate. }
    intros _.
    split.
    { rewrite testbit_byte_cons by lia. cbn [Z.ltb Z.compare].
      rewrite Fb0. subst kb. unfold byteAt.
      rewrite Nat2Z.id. f_equal. f_equal. f_equal. lia. }
    split.
    { rewrite testbit_byte_cons by lia.
      destruct m as [|m'].
      - cbn [Z.of_nat Z.mul Z.sub Z.add Z.ltb Z.compare Z.pos_sub
             Pos.compare Pos.compare_cont Z.opp Pos.of_succ_nat
             Pos.succ Pos.mul Pos.add Pos.pred_double].
        destruct (Hm0 eq_refl) as (_ & -> & _).
        change (8 * 1 - 1) with 7. cbn [Z.ltb Z.compare Pos.compare
                                        Pos.compare_cont].
        intros T7. specialize (Fb7 T7).
        assert (nextWord = 0) by reflexivity.
        subst nextWord. destruct Fc as [->| ->]; [reflexivity|].
        rewrite H in Fb7. discriminate.
      - destruct (Z.ltb_spec (8 * Z.of_nat (S (S m')) - 1) 8); [lia|].
        replace (8 * Z.of_nat (S (S m')) - 1 - 8)
          with (8 * Z.of_nat (S m') - 1) by lia.
        destruct (Hrest ltac:(lia)) as (_ & R7 & _). exact R7. }
    intros Hk0 Hc0.
    destruct m as [|m'].
    + destruct (Hm0 eq_refl) as (_ & E & ->). cbn [app hd].
      apply Fhd.
      * reflexivity.
      * now rewrite <- E.
      * exact Hk0.
    + destruct (Hrest ltac:(lia)) as (_ & _ & Rhd).
      destruct ps1 as [|x ps1]; [discriminate|].
      cbn [app hd]. exact (Rhd Hk0 Hc0).
Qed.

End NafLoop.

Lemma lor_range (m a b : Z) :
  0 <= m -> 0 <= a < 2 ^ m -> 0 <= b < 2 ^ m -> 0 <= Z.lor a b < 2 ^ m.
Proof.
  intros Hm Ha Hb.
  destruct (Z.eq_dec m 0) as [->|Hm0].
  { change (2 ^ 0) with 1 in *.
    assert (a = 0) by lia. assert (b = 0) by lia. subst. cbn. lia. }
  split; [apply Z.lor_nonneg; lia|].
  destruct (Z.eq_dec (Z.lor a b) 0) as [->|Hnz]; [lia|].
  assert (0 < Z.lor a b)
    by (pose proof (proj2 (Z.lor_nonneg a b) ltac:(lia)); lia).
  apply Z.log2_lt_pow2; [assumption|].
  rewrite Z.log2_lor by lia.
  assert (La : Z.log2 a < m).
  { destruct (Z.eq_dec a 0) as [->|]; [cbn; lia|].
    apply Z.log2_lt_pow2; lia. }
  assert (Lb : Z.log2 b < m).
  { destruct (Z.eq_dec b 0) as [->|]; [cbn; lia|].
    apply Z.log2_lt_pow2; lia. }
  lia.
Qed.

Lemma testbit_top (m D i : Z) :
  0 <= m -> 0 <= D < 2 ^ m -> 0 <= i ->
  Z.testbit (2 ^ m + D) i = if i =? m then true else Z.testbit D i.
Proof.
  intros Hm HD Hi. destruct (Z.lt_ge_cases i m) as [Hlt|Hge].
  - destruct (Z.eqb_spec i m); [lia|].
    rewrite <- (Z.mod_pow2_bits_low (2 ^ m + D) m i) by lia.
    replace (2 ^ m + D) with (D + 1 * 2 ^ m) by lia.
    rewrite Z.mod_add by lia. now rewrite Z.mod_small by lia.
  - replace i with ((i - m) + m) at 1 by lia.
    rewrite <- Z.div_pow2_bits by lia.
    replace (2 ^ m + D) with (D + 1 * 2 ^ m) by lia.
    rewrite Z.div_add, Z.div_small by lia. cbn [Z.add].
    destruct (Z.eqb_spec i m) as [->|Hne].
    + now rewrite Z.sub_diag.
    + rewrite (Z.bits_above_log2 D i); [|lia|].
      * apply Z.bits_above_log2; [lia|]. cbn. lia.
      * destruct (Z.eq_dec D 0) as [->|]; [cbn; lia|].
        apply Z.lt_le_trans with m; [|lia].
        apply Z.log2_lt_pow2; lia.
Qed.

Lemma nonadjacent_top (m D : Z) :
  0 <= m -> 0 <= D < 2 ^ m -> nonadjacent D ->
  (1 <= m -> Z.testbit D (m - 1) = false) ->
  nonadjacent (2 ^ m + D).
Proof.
  intros Hm HD Hna Htop i Hi [H1 H2].
  rewrite testbit_top in H1, H2 by lia.
  destruct (Z.eqb_spec i m) as [->|Hne].
  - destruct (Z.eqb_spec (m + 1) m); [lia|].
    rewrite Z.bits_above_log2 in H2; [discriminate|lia|].
    destruct (Z.eq_dec D 0) as [->|]; [cbn; lia|].
    apply Z.lt_trans with m; [|lia]. apply Z.log2_lt_pow2; lia.
  - destruct (Z.eqb_spec (i + 1) m) as [E|Hne'].
    + replace i with (m - 1) in H1 by lia.
      rewrite Htop in H1 by lia. discriminate.
    + apply (Hna i Hi). auto.
Qed.

Lemma strip_zeros_hd (l : list Z) :
  strip_zeros l <> [] -> nth 0 (strip_zeros l) 0 <> 0.
Proof.
  induction l as [|b l IH]; simpl; [congruence|].
  destruct (Z.eqb_spec b 0); [exact IH|]. intros _. exact n.
Qed.

Lemma store_head (x : Z) (a : list Z) (v : Z) :
  store (x :: a) 0 v = Ok (v :: a).
Proof.
  unfold store. rewrite len_cons. pose proof (len_nonneg a).
  destruct (Z.ltb_spec 0 (1 + len a)); [reflexivity|lia].
Qed.

(** C6.  For a big-endian slice [k] encoding an integer in [0, 2^256),
    [naf] returns (without running out of its arrays) slices [Pos] and
    [Neg] of equal length with [Pos - Neg = k], no two adjacent bits of
    [Pos | Neg] set, and no leading zero byte in [Pos]. *)
Theorem naf_spec (k : list Z) :
  is_bytes k -> 0 <= be_val k < 2 ^ 256 ->
  exists r,
    naf k = Ok r /\
    let P := nafScalar_Pos r in
    let N := nafScalar_Neg r in
    is_bytes P /\ is_bytes N /\
    be_val P - be_val N = be_val k /\
    len N = len P /\ len N <= len P /\
    nonadjacent (Z.lor (be_val P) (be_val N)) /\
    match P with b :: _ => b <> 0 | [] => True end.
Proof.
  intros Hk Hv.
  unfold naf. cbv zeta.
  set (k' := strip_zeros k).
  assert (Hk' : is_bytes k') by now apply is_bytes_strip_zeros.
  assert (HL : (length k' <= 32)%nat).
  { destruct (Z.le_gt_cases (len k') 32) as [H|H]; [unfold len in H; lia|].
    pose proof (strip_zeros_long k Hk ltac:(fold k'; lia)).
    change (256 ^ 32) with (2 ^ 256) in *. lia. }
  assert (Hv' : be_val k' = be_val k) by apply be_val_strip_zeros.
  destruct (nafLoop_spec k' Hk' (length k') (repeat 0 33) (repeat 0 33) 0)
    as (ps & ns & c & Hrun & Lps & Lns & Bps & Bns & Hc & Hsum & Hna & Hrest);
    try (rewrite ?repeat_length; lia).
  rewrite Hrun. cbn [bind].
  rewrite firstn_all in Hsum.
  change (Z.of_nat (length k')) with (len k') in Hsum.
  set (rest := skipn (S (length k')) (repeat 0 33)) in *.
  change (firstn 1 (repeat 0 33)) with [0].
  cbn [app]. rewrite store_head. cbn [bind].
  assert (Hc256 : (1 - c) mod 256 = 1 - c)
    by (destruct Hc as [-> | ->]; reflexivity).
  assert (He : (len k' + 1) mod 256 = len k' + 1)
    by (apply Z.mod_small; unfold len; lia).
  eexists. split; [reflexivity|].
  unfold nafScalar_Pos, nafScalar_Neg.
  cbn [naf_pos naf_neg naf_start naf_end].
  rewrite Hc256, He.
  assert (Lps' : len ps = len k') by (unfold len; now rewrite Lps).
  assert (Lns' : len ns = len k') by (unfold len; now rewrite Lns).
  pose proof (be_val_bound ps Bps) as Rps.
  pose proof (be_val_bound ns Bns) as Rns.
  destruct Hc as [-> | ->].
  - (* no final carry: the slices start at index 1 *)
    change (1 - 0) with 1.
    pose proof (slice_app [0] ps rest 1 (len k' + 1) eq_refl ltac:(lia))
      as S1.
    pose proof (slice_app [0] ns rest 1 (len k' + 1) eq_refl ltac:(lia))
      as S2.
    cbn [app] in S1, S2. rewrite S1, S2.
    cbv zeta.
    split; [assumption|]. split; [assumption|].
    split; [lia|]. split; [lia|]. split; [lia|].
    split; [assumption|].
    destruct ps as [|b ps]; [exact I|].
    assert (H1 : (1 <= length k')%nat) by (rewrite <- Lps; cbn; lia).
    destruct (Hrest H1) as (_ & _ & Hhd).
    apply Hhd; [|reflexivity].
    apply strip_zeros_hd. fold k'.
    destruct k'; [cbn in H1; lia|discriminate].
  - (* final carry: the slices start at index 0 *)
    change (1 - 1) with 0.
    pose proof (slice_app [] (1 :: ps) rest 0 (len k' + 1) eq_refl
                  ltac:(rewrite len_cons; lia)) as S1.
    pose proof (slice_app [] (0 :: ns) rest 0 (len k' + 1) eq_refl
                  ltac:(rewrite len_cons; lia)) as S2.
    cbn [app] in S1, S2. rewrite S1, S2.
    cbv zeta.
    assert (Bz : is_byte 0 /\ is_byte 1) by (unfold is_byte; lia).
    split; [constructor; tauto|]. split; [constructor; tauto|].
    rewrite (be_val_cons 1), (be_val_cons 0), !len_cons, Lps', Lns'.
    split; [lia|]. split; [lia|]. split; [lia|].
    split; [|discriminate].
    replace (1 * 256 ^ len k' + be_val ps)
      with (2 ^ (8 * len k') + be_val ps)
      by (change 256 with (2 ^ 8); rewrite <- Z.pow_mul_r; unfold len; lia).
    replace (0 * 256 ^ len k' + be_val ns) with (be_val ns) by lia.
    assert (Hpow : 256 ^ len k' = 2 ^ (8 * len k'))
      by (change 256 with (2 ^ 8); rewrite <- Z.pow_mul_r; unfold len; lia).
    rewrite Lps', Hpow in Rps. rewrite Lns', Hpow in Rns.
    assert (Hm : 0 <= 8 * len k') by (unfold len; lia).
    pose proof (lor_range _ _ _ Hm Rps Rns) as RD.
    assert (El : Z.lor (2 ^ (8 * len k') + be_val ps) (be_val ns)
                 = 2 ^ (8 * len k') + Z.lor (be_val ps) (be_val ns)).
    { apply Z.bits_inj'. intros i Hi.
      rewrite Z.lor_spec, !testbit_top, Z.lor_spec by lia.
      destruct (Z.eqb_spec i (8 * len k')) as [->|]; [|reflexivity].
      reflexivity. }
    rewrite El. apply nonadjacent_top; try assumption.
    intros H1.
    destruct (Z.testbit (Z.lor (be_val ps) (be_val ns)) (8 * len k' - 1))
      eqn:T; [|reflexivity].
    assert (H1' : (1 <= length k')%nat) by (unfold len in H1; lia).
    destruct (Hrest H1') as (_ & Htop & _).
    specialize (Htop T). discriminate.
Qed.

(** ** The identity in [AddNonConst] and [DoubleNonConst] *)

Lemma fieldPrime_odd : fieldPrime = 2 * (fieldPrime / 2) + 1.
Proof. reflexivity. Qed.

Lemma fieldPrime_pos : 0 < fieldPrime.
Proof. reflexivity. Qed.

Lemma DoubleNonConst_infinity (P : JacobianPoint) :
  FieldVal.IsZero (Y P) || FieldVal.IsZero (Z' P) = true ->
  DoubleNonConst P = infinityPoint.
Proof. intros H. unfold DoubleNonConst. now rewrite H. Qed.

Lemma addEqualX_false (P : JacobianPoint) : addEqualX false P = infinityPoint.
Proof. reflexivity. Qed.

Lemma mul3_mod_idemp (a b c m : Z) :
  m <> 0 -> (a * (b mod m) * c) mod m = (a * b * c) mod m.
Proof.
  intros Hm.
  rewrite <- (Z.mul_mod_idemp_l (a * (b mod m))) by assumption.
  rewrite Z.mul_mod_idemp_r by assumption.
  now rewrite Z.mul_mod_idemp_l by assumption.
Qed.

Ltac modp_norm :=
  repeat rewrite ?Z.mul_mod_idemp_l, ?Z.mul_mod_idemp_r, ?Z.mod_mod,
    ?mul3_mod_idemp by discriminate.

Lemma AddNonConst_opposite (P1 P2 : JacobianPoint) (x : Z) :
  normalizedPoint P1 -> normalizedPoint P2 ->
  isInfinity P1 = false -> isInfinity P2 = false ->
  hasAffineX P1 x -> hasAffineX P2 x ->
  likeY P1 P2 <> likeY P2 P1 ->
  AddNonConst P1 P2 = infinityPoint.
Proof.
  intros (Hx1 & Hy1 & Hz1) (Hx2 & Hy2 & Hz2) I1 I2 A1 A2 HY.
  unfold hasAffineX in A1, A2. unfold likeY in HY.
  unfold AddNonConst. rewrite I1, I2. cbv zeta.
  unfold FieldVal.IsOne, FieldVal.Equals.
  destruct (Z.eqb_spec (Z' P1) 1) as [E1|N1];
    destruct (Z.eqb_spec (Z' P2) 1) as [E2|N2]; cbn [andb].
  - (* Z1 = Z2 = 1 *)
    unfold addZ1AndZ2EqualsOne. cbv zeta. unfold FieldVal.Equals.
    rewrite E1, E2 in *.
    assert (EX : X P1 = X P2) by congruence.
    assert (NY : Y P1 <> Y P2) by (intros E; apply HY; now rewrite E).
    rewrite EX, Z.eqb_refl.
    apply Z.eqb_neq in NY. rewrite NY. reflexivity.
  - (* Z1 = 1, Z2 <> 1 *)
    destruct (Z.eqb_spec (Z' P1) (Z' P2)) as [E|N]; [congruence|].
    unfold addGeneric. cbv zeta.
    unfold FieldVal.Equals, FieldVal.Normalize, FieldVal.Mul, FieldVal.Mul2,
      FieldVal.SquareVal, FieldVal.Set_.
    modp_norm.
    assert (EU : (X P1 * (Z' P2 * Z' P2)) mod fieldPrime
                 = (X P2 * (Z' P1 * Z' P1)) mod fieldPrime).
    { rewrite A1, A2. modp_norm. f_equal. ring. }
    rewrite EU, Z.eqb_refl.
    assert (NS : (Y P1 * (Z' P2 * Z' P2) * Z' P2) mod fieldPrime
                 <> (Y P2 * (Z' P1 * Z' P1) * Z' P1) mod fieldPrime).
    { intros E. apply HY. rewrite <- !Z.mul_assoc in E.
      rewrite <- !Z.mul_assoc. exact E. }
    apply Z.eqb_neq in NS. rewrite NS. reflexivity.
  - (* Z2 = 1, Z1 <> 1 *)
    destruct (Z.eqb_spec (Z' P1) (Z' P2)) as [E|N]; [congruence|].
    unfold addZ2EqualsOne. cbv zeta.
    unfold FieldVal.Equals, FieldVal.Normalize, FieldVal.Mul, FieldVal.Mul2,
      FieldVal.SquareVal, FieldVal.Set_.
    modp_norm.
    assert (EU : X P1 = (X P2 * (Z' P1 * Z' P1)) mod fieldPrime).
    { rewrite A1 at 1. rewrite A2, E2. modp_norm. f_equal. ring. }
    rewrite <- EU, Z.eqb_refl.
    assert (NS : Y P1
                 <> (Y P2 * (Z' P1 * Z' P1) * Z' P1) mod fieldPrime).
    { intros E. apply HY. rewrite E2.
      replace (Y P1 * (1 * 1 * 1)) with (Y P1) by lia.
      rewrite (Z.mod_small (Y P1)) by assumption.
      rewrite E at 1. f_equal. lia. }
    apply Z.eqb_neq in NS. rewrite NS. reflexivity.
  - (* neither is 1 *)
    destruct (Z.eqb_spec (Z' P1) (Z' P2)) as [E|N].
    + unfold addZ1EqualsZ2. cbv zeta. unfold FieldVal.Equals.
      assert (EX : X P1 = X P2) by (rewrite A1, A2, E; reflexivity).
      assert (NY : Y P1 <> Y P2)
        by (intros EY; apply HY; now rewrite EY, E).
      rewrite EX, Z.eqb_refl.
      apply Z.eqb_neq in NY. rewrite NY. reflexivity.
    + unfold addGeneric. cbv zeta.
      unfold FieldVal.Equals, FieldVal.Normalize, FieldVal.Mul, FieldVal.Mul2,
        FieldVal.SquareVal, FieldVal.Set_.
      modp_norm.
      assert (EU : (X P1 * (Z' P2 * Z' P2)) mod fieldPrime
                   = (X P2 * (Z' P1 * Z' P1)) mod fieldPrime).
      { rewrite A1, A2. modp_norm. f_equal. ring. }
      rewrite EU, Z.eqb_refl.
      assert (NS : (Y P1 * (Z' P2 * Z' P2) * Z' P2) mod fieldPrime
                   <> (Y P2 * (Z' P1 * Z' P1) * Z' P1) mod fieldPrime).
      { intros E. apply HY. rewrite <- !Z.mul_assoc in E.
        rewrite <- !Z.mul_assoc. exact E. }
      apply Z.eqb_neq in NS. rewrite NS. reflexivity.
Qed.

(** C8, as the code has it.  Adding an infinity operand (either
    representation) copies the other operand: [AddNonConst inf P = P]
    for every [P], and [AddNonConst P inf = P] for every [P] that is
    not itself a representation of infinity (when it is, the second
    operand [inf] is returned).  Where the operations compute the point
    at infinity themselves (doubling a point with [Y = 0] or [Z = 0];
    adding two normalized points, neither at infinity, with the same
    affine x and different y in like terms; adding two affine points
    with the same x and opposite y) the result is [(0, 0, 0)], so the
    emitted [Z] is 0. *)
Theorem AddNonConst_identity :
  (forall inf P, isInfinity inf = true -> AddNonConst inf P = P) /\
  (forall P inf, isInfinity P = false -> isInfinity inf = true ->
                 AddNonConst P inf = P) /\
  (forall P inf, isInfinity P = true -> AddNonConst P inf = inf) /\
  (forall P, FieldVal.IsZero (Y P) || FieldVal.IsZero (Z' P) = true ->
             DoubleNonConst P = infinityPoint /\
             Z' (DoubleNonConst P) = 0) /\
  (forall P1 P2 x,
     normalizedPoint P1 -> normalizedPoint P2 ->
     isInfinity P1 = false -> isInfinity P2 = false ->
     hasAffineX P1 x -> hasAffineX P2 x -> likeY P1 P2 <> likeY P2 P1 ->
     AddNonConst P1 P2 = infinityPoint /\ Z' (AddNonConst P1 P2) = 0) /\
  (forall x y,
     0 <= x < fieldPrime -> 0 <= y < fieldPrime -> ~ (x = 0 /\ y = 0) ->
     let P1 := MakeJacobianPoint x y 1 in
     let P2 := MakeJacobianPoint x ((fieldPrime - y) mod fieldPrime) 1 in
     AddNonConst P1 P2 = infinityPoint /\ Z' (AddNonConst P1 P2) = 0).
Proof.
  split; [|split; [|split; [|split; [|split]]]].
  - intros inf P H. unfold AddNonConst. now rewrite H.
  - intros P inf HP H. unfold AddNonConst. now rewrite HP, H.
  - intros P inf HP. unfold AddNonConst. now rewrite HP.
  - intros P H. now rewrite DoubleNonConst_infinity.
  - intros P1 P2 x N1 N2 I1 I2 A1 A2 HY.
    now rewrite (AddNonConst_opposite P1 P2 x).
  - intros x y Hx Hy Hxy P1 P2.
    assert (E : AddNonConst P1 P2 = infinityPoint); [|now rewrite E].
    unfold AddNonConst, isInfinity, P1, P2. cbn [X Y Z'].
    unfold FieldVal.IsZero, FieldVal.IsOne.
    change (1 =? 0) with false. change (1 =? 1) with true.
    rewrite !orb_false_r. cbn [andb].
    pose proof fieldPrime_odd as Hodd.
    assert (Hny : y = 0 \/ (y <> 0 /\ (fieldPrime - y) mod fieldPrime
                                      = fieldPrime - y)).
    { destruct (Z.eq_dec y 0); [now left|right]. split; [assumption|].
      apply Z.mod_small. lia. }
    assert (H1 : (x =? 0) && (y =? 0) = false).
    { destruct (Z.eqb_spec x 0); destruct (Z.eqb_spec y 0); try reflexivity.
      tauto. }
    assert (H2 : (x =? 0) && ((fieldPrime - y) mod fieldPrime =? 0) = false).
    { destruct (Z.eqb_spec x 0); [|reflexivity]. cbn [andb].
      apply Z.eqb_neq. destruct Hny as [-> | [Hy0 ->]]; [tauto|lia]. }
    rewrite H1, H2.
    unfold addZ1AndZ2EqualsOne. cbn [X Y Z']. unfold FieldVal.Equals.
    rewrite Z.eqb_refl.
    destruct (Z.eqb_spec y ((fieldPrime - y) mod fieldPrime)) as [E|N];
      [|reflexivity].
    cbn [addEqualX]. apply DoubleNonConst_infinity. cbn [Y Z'].
    unfold FieldVal.IsZero.
    destruct Hny as [-> | [Hy0 E']]; [reflexivity|].
    rewrite E' in E. lia.
Qed.

(** C8, as stated, fails where an infinity operand is copied:
    [(0, 0, 1) + (0, 0, 0)] returns the second operand, not the first,
    and [(0, 0, 0) + (0, 0, 1)] returns the point at infinity with
    [Z = 1]. *)
Lemma AddNonConst_identity_counterexample :
  isInfinity (MakeJacobianPoint 0 0 0) = true /\
  isInfinity (MakeJacobianPoint 0 0 1) = true /\
  AddNonConst (MakeJacobianPoint 0 0 1) (MakeJacobianPoint 0 0 0)
    <> MakeJacobianPoint 0 0 1 /\
  isInfinity (AddNonConst (MakeJacobianPoint 0 0 0) (MakeJacobianPoint 0 0 1))
    = true /\
  Z' (AddNonConst (MakeJacobianPoint 0 0 0) (MakeJacobianPoint 0 0 1)) <> 0.
Proof.
  repeat split; try reflexivity; cbn; discriminate.
Qed.

(** ** Signing *)

Lemma ToAffine_normalized (q : JacobianPoint) :
  0 <= X (ToAffine q) < fieldPrime /\ 0 <= Y (ToAffine q) < fieldPrime.
Proof.
  unfold ToAffine, FieldVal.Normalize. cbn [X Y].
  split; apply Z.mod_pos_bound; reflexivity.
Qed.

Lemma fieldToModNScalar_eq (v : FieldVal.t) :
  0 <= v < fieldPrime ->
  fieldToModNScalar v = (v mod curveN, if curveN <=? v then 1 else 0).
Proof.
  intros Hv. unfold fieldToModNScalar, ModNScalar.SetBytes,
    ModNScalar.SetByteSlice, FieldVal.PutBytes.
  rewrite low32_short by (rewrite len_be_fixed; reflexivity).
  rewrite (be_val_be_fixed_small 32); [reflexivity|].
  assert (fieldPrime < 256 ^ Z.of_nat 32) by reflexivity. lia.
Qed.

Lemma recoveryCode_bits (o : Z) (b f : bool) :
  o = 0 \/ o = 1 ->
  let v0 := Z.lor (Z.shiftl o 1 mod 256) ((if b then 1 else 0) mod 256) in
  let v := if f then Z.lxor v0 1 else v0 in
  0 <= v <= 3 /\ Z.testbit v 1 = (o =? 1) /\ Z.testbit v 0 = xorb b f.
Proof.
  intros [-> | ->]; destruct b, f; cbn; repeat split; lia.
Qed.

Lemma signFrom_invariants (kG : JacobianPoint) (privKey nonce : ModNScalar.t)
    (hash : list Z) :
  0 <= X kG < fieldPrime ->
  let r := X kG mod curveN in
  let e := fst (ModNScalar.SetByteSlice hash) in
  let s0 := ModNScalar.Mul (ModNScalar.Add (ModNScalar.Mul2 privKey r) e)
                           (ModNScalar.InverseValNonConst nonce) in
  (signFrom kG privKey nonce hash = None <-> r = 0 \/ s0 = 0) /\
  (forall sig, signFrom kG privKey nonce hash = Some sig ->
     sig_r sig = r /\ 1 <= sig_r sig < curveN /\
     sig_s sig = (if curveN / 2 <? s0 then curveN - s0 else s0) /\
     1 <= sig_s sig <= curveN / 2 /\
     0 <= sig_v sig <= 3 /\
     Z.testbit (sig_v sig) 1 = (curveN <=? X kG) /\
     Z.testbit (sig_v sig) 0 = xorb (Z.odd (Y kG)) (curveN / 2 <? s0)).
Proof.
  intros HX r e s0.
  pose proof curveN_pos as HN. pose proof curveN_odd as Hodd.
  assert (Hr : 0 <= r < curveN) by (apply Z.mod_pos_bound; exact HN).
  assert (Hs0 : 0 <= s0 < curveN) by (apply Z.mod_pos_bound; exact HN).
  unfold signFrom. cbv zeta.
  rewrite (fieldToModNScalar_eq (X kG) HX). fold r. fold e. fold s0.
  unfold ModNScalar.IsZero, ModNScalar.IsOverHalfOrder, FieldVal.IsOddBit.
  clearbody s0 e r.
  destruct (Z.eqb_spec r 0) as [Er|Nr].
  { split; [tauto|discriminate]. }
  destruct (Z.eqb_spec s0 0) as [Es|Ns].
  { split; [tauto|discriminate]. }
  split.
  { destruct (curveN / 2 <? s0); split; try discriminate; tauto. }
  intros sig Hsig.
  pose proof (recoveryCode_bits (if curveN <=? X kG then 1 else 0)
                (Z.odd (Y kG)) (curveN / 2 <? s0)
                ltac:(destruct (curveN <=? X kG); auto)) as Hv.
  cbv zeta in Hv.
  assert (Ho : ((if curveN <=? X kG then 1 else 0) =? 1)
               = (curveN <=? X kG))
    by (destruct (curveN <=? X kG); reflexivity).
  rewrite Ho in Hv. destruct Hv as (V1 & V2 & V3).
  destruct (Z.ltb_spec (curveN / 2) s0) as [Hov|Hlow];
    injection Hsig as <-; cbv beta iota delta [sig_r sig_s sig_v].
  - rewrite ModN_Negate_pos by lia.
    repeat split; try assumption; try lia; apply V1.
  - repeat split; try assumption; try lia; apply V1.
Qed.

(** C7.  [sign] fails exactly when [r = 0] or [s = 0]; a signature it
    returns has [r = x(kG) mod n], [r <> 0], [s <> 0], [s <= n/2]
    ([s] is [k^-1 (e + d r)] or its negation [n - s] when that is over
    the half order), and a recovery code in [0, 3] whose bit 1 says
    that [x(kG) >= n] and whose bit 0 is the oddness of [y(kG)],
    flipped exactly when [s] was negated. *)
Theorem sign_invariants (privKey nonce : ModNScalar.t) (hash : list Z) :
  let kG := ToAffine (ScalarBaseMultNonConst nonce) in
  let r := X kG mod curveN in
  let e := fst (ModNScalar.SetByteSlice hash) in
  let s0 := ModNScalar.Mul (ModNScalar.Add (ModNScalar.Mul2 privKey r) e)
                           (ModNScalar.InverseValNonConst nonce) in
  (sign privKey nonce hash = None <-> r = 0 \/ s0 = 0) /\
  (forall sig, sign privKey nonce hash = Some sig ->
     sig_r sig = r /\ 1 <= sig_r sig < curveN /\
     sig_s sig = (if curveN / 2 <? s0 then curveN - s0 else s0) /\
     1 <= sig_s sig <= curveN / 2 /\
     0 <= sig_v sig <= 3 /\
     Z.testbit (sig_v sig) 1 = (curveN <=? X kG) /\
     Z.testbit (sig_v sig) 0 = xorb (Z.odd (Y kG)) (curveN / 2 <? s0)).
Proof.
  intros kG. unfold sign. cbv zeta. fold kG.
  apply signFrom_invariants.
  apply ToAffine_normalized.
Qed.

(** ** Compact signatures *)

Lemma SetByteSlice_32 (l : list Z) :
  is_bytes l -> len l = 32 ->
  ModNScalar.SetByteSlice l = (be_val l mod curveN, curveN <=? be_val l).
Proof.
  intros Hb Hl. unfold ModNScalar.SetByteSlice.
  rewrite low32_short by lia. reflexivity.
Qed.

Lemma code_bits (c : Z) :
  0 <= c <= 7 ->
  negb (Z.land c compactSigCompPubKey =? 0) = (4 <=? c) /\
  Z.land c 3 = c mod 4.
Proof.
  intros H.
  assert (E : c = 0 \/ c = 1 \/ c = 2 \/ c = 3 \/ c = 4 \/ c = 5 \/ c = 6 \/ c = 7)
    by lia.
  destruct E as [->|[->|[->|[->|[->|[->|[->| ->]]]]]]]; split; reflexivity.
Qed.

(** The decision list of [ParseCompactSignature]. *)
Lemma ParseCompact_decision (sig : list Z) :
  is_bytes sig ->
  let code := byteAt sig 0 in
  let R := be_val (slice sig 1 33) in
  let S := be_val (slice sig 33 65) in
  ParseCompactSignature sig =
    if negb (len sig =? 65) then (Err ErrSigInvalidLen, false)
    else if (code <? 27) || (34 <? code)
    then (Err ErrSigInvalidRecoveryCode, false)
    else if curveN <=? R then (Err ErrSigRTooBig, 31 <=? code)
    else if R =? 0 then (Err ErrSigRIsZero, 31 <=? code)
    else if curveN <=? S then (Err ErrSigSTooBig, 31 <=? code)
    else if S =? 0 then (Err ErrSigSIsZero, 31 <=? code)
    else (Ok (mkSignature R S ((code - 27) mod 4)), 31 <=? code).
Proof.
  intros Hb code R S. unfold ParseCompactSignature.
  change compactSigSize with 65.
  destruct (Z.eqb_spec (len sig) 65) as [HL|HL]; [|reflexivity].
  cbn [negb]. rewrite index_byteAt by lia. fold code.
  change compactSigMagicOffset with 27.
  change (27 + compactSigCompPubKey + 3) with 34.
  rewrite (Z.gtb_ltb code 34).
  destruct (Z.ltb_spec code 27) as [H1|H1]; [reflexivity|].
  destruct (Z.ltb_spec 34 code) as [H2|H2]; [reflexivity|].
  cbn [orb].
  rewrite (Z.mod_small (code - 27) 256) by lia.
  destruct (code_bits (code - 27) ltac:(lia)) as [E1 E2].
  rewrite E1, E2.
  replace (4 <=? code - 27) with (31 <=? code)
    by (destruct (Z.leb_spec 31 code), (Z.leb_spec 4 (code - 27)); lia).
  rewrite HL.
  assert (HbR : is_bytes (slice sig 1 33)) by now apply is_bytes_slice.
  assert (HbS : is_bytes (slice sig 33 65)) by now apply is_bytes_slice.
  assert (HlR : len (slice sig 1 33) = 32) by (rewrite len_slice; lia).
  assert (HlS : len (slice sig 33 65) = 32) by (rewrite len_slice; lia).
  rewrite (SetByteSlice_32 _ HbR HlR), (SetByteSlice_32 _ HbS HlS).
  fold R. fold S.
  pose proof (be_val_bound _ HbR) as BR. fold R in BR.
  pose proof (be_val_bound _ HbS) as BS. fold S in BS.
  pose proof curveN_pos.
  destruct (Z.leb_spec curveN R) as [H3|H3]; [reflexivity|].
  rewrite (Z.mod_small R curveN) by lia. unfold ModNScalar.IsZero.
  destruct (Z.eqb_spec R 0) as [H4|H4]; [reflexivity|].
  destruct (Z.leb_spec curveN S) as [H5|H5]; [reflexivity|].
  rewrite (Z.mod_small S curveN) by lia.
  destruct (Z.eqb_spec S 0) as [H6|H6]; reflexivity.
Qed.

(** X1.  [ParseCompactSignature] never reads out of range, follows the
    decision list above (one error kind per failed check, in this
    order: length, recovery code, R too big, R zero, S too big, S
    zero), and accepts exactly the 65-byte strings whose first byte is
    in [27, 34] and whose R and S fields are in [1, n-1]; the recovery
    code is the first byte minus 27 modulo 4 and the compressed flag is
    set from 31 on. *)
Theorem ParseCompactSignature_spec (sig : list Z) :
  is_bytes sig ->
  let code := byteAt sig 0 in
  let R := be_val (slice sig 1 33) in
  let S := be_val (slice sig 33 65) in
  fst (ParseCompactSignature sig) <> Panic /\
  (fst (ParseCompactSignature sig) = Err ErrSigInvalidLen <-> len sig <> 65) /\
  (len sig = 65 ->
   (fst (ParseCompactSignature sig) = Err ErrSigInvalidRecoveryCode
    <-> ~ 27 <= code <= 34)) /\
  (forall s c,
     ParseCompactSignature sig = (Ok s, c) <->
     len sig = 65 /\ 27 <= code <= 34 /\ 1 <= R < curveN /\ 1 <= S < curveN /\
     s = mkSignature R S ((code - 27) mod 4) /\ c = (31 <=? code)).
Proof.
  intros Hb code R S.
  pose proof (ParseCompact_decision sig Hb) as D. cbv zeta in D.
  fold code in D. fold R in D. fold S in D.
  assert (BR : 0 <= R)
    by (apply (be_val_bound (slice sig 1 33)); now apply is_bytes_slice).
  assert (BS : 0 <= S)
    by (apply (be_val_bound (slice sig 33 65)); now apply is_bytes_slice).
  rewrite D. clear D.
  destruct (Z.eqb_spec (len sig) 65) as [HL|HL]; cbn [negb].
  2:{ cbn [fst]. split; [discriminate|]. split; [tauto|]. split; [tauto|].
      intros s c; split; [discriminate|tauto]. }
  destruct (Z.ltb_spec code 27) as [H1|H1]; cbn [orb].
  { cbn [fst]. split; [discriminate|]. split; [split; [discriminate|tauto]|].
    split; [intros _; split; [lia|reflexivity]|].
    intros s c; split; [discriminate|lia]. }
  destruct (Z.ltb_spec 34 code) as [H2|H2].
  { cbn [fst]. split; [discriminate|]. split; [split; [discriminate|tauto]|].
    split; [intros _; split; [lia|reflexivity]|].
    intros s c; split; [discriminate|lia]. }
  destruct (Z.leb_spec curveN R) as [H3|H3].
  { cbn [fst]. split; [discriminate|]. split; [split; [discriminate|tauto]|].
    split; [intros _; split; [discriminate|lia]|].
    intros s c; split; [discriminate|lia]. }
  destruct (Z.eqb_spec R 0) as [H4|H4].
  { cbn [fst]. split; [discriminate|]. split; [split; [discriminate|tauto]|].
    split; [intros _; split; [discriminate|lia]|].
    intros s c; split; [discriminate|lia]. }
  destruct (Z.leb_spec curveN S) as [H5|H5].
  { cbn [fst]. split; [discriminate|]. split; [split; [discriminate|tauto]|].
    split; [intros _; split; [discriminate|lia]|].
    intros s c; split; [discriminate|lia]. }
  destruct (Z.eqb_spec S 0) as [H6|H6].
  { cbn [fst]. split; [discriminate|]. split; [split; [discriminate|tauto]|].
    split; [intros _; split; [discriminate|lia]|].
    intros s c; split; [discriminate|lia]. }
  cbn [fst]. split; [discriminate|]. split; [split; [discriminate|tauto]|].
  split; [intros _; split; [discriminate|lia]|].
  intros s c; split.
  - intros E. injection E as <- <-. repeat split; lia.
  - intros (_ & _ & _ & _ & -> & ->). reflexivity.
Qed.

Lemma byteAt_cons_0 (c : Z) (l : list Z) : byteAt (c :: l) 0 = c.
Proof. reflexivity. Qed.

Lemma lxor_1_range (v : Z) : 0 <= v <= 3 -> 0 <= Z.lxor v 1 <= 3.
Proof.
  intros H. assert (E : v = 0 \/ v = 1 \/ v = 2 \/ v = 3) by lia.
  destruct E as [->|[->|[->| ->]]]; cbn; lia.
Qed.

(** X2.  Parsing what [ExportCompact] wrote recovery code first, with
    the offset of [SignCompact] (27, plus 4 for a compressed key),
    returns R and S as they are stored (S is not brought to its low
    form), the recovery code with its oddness bit flipped exactly when
    S is over the half order, and the compressed flag. *)
Theorem ExportCompact_Parse (sig : Signature) (isCompressedKey : bool) :
  1 <= sig_r sig < curveN -> 1 <= sig_s sig < curveN ->
  0 <= sig_v sig <= 3 ->
  ParseCompactSignature
    (ExportCompact sig true
       (compactSigMagicOffset
        + if isCompressedKey then compactSigCompPubKey else 0))
  = (Ok (mkSignature (sig_r sig) (sig_s sig)
           (if ModNScalar.IsOverHalfOrder (sig_s sig)
            then Z.lxor (sig_v sig) 1 else sig_v sig)),
     isCompressedKey).
Proof.
  intros Hr Hs Hv.
  set (off := compactSigMagicOffset
              + if isCompressedKey then compactSigCompPubKey else 0).
  destruct (ExportCompact_eq sig true off) as (c & Hc & E).
  rewrite E. clear E.
  set (v' := if ModNScalar.IsOverHalfOrder (sig_s sig)
             then Z.lxor (sig_v sig) 1 else sig_v sig).
  assert (Hv' : 0 <= v' <= 3).
  { unfold v'. destruct (ModNScalar.IsOverHalfOrder (sig_s sig));
      [now apply lxor_1_range|assumption]. }
  assert (Hoff : off = 27 + if isCompressedKey then 4 else 0) by reflexivity.
  assert (Ec : c = v' + off).
  { rewrite Hc. unfold v'.
    destruct (ModNScalar.IsOverHalfOrder (sig_s sig)), isCompressedKey;
      apply Z.mod_small; pose proof (lxor_1_range _ Hv); lia. }
  assert (Hbytes : is_bytes (c :: be_fixed 32 (sig_r sig)
                               ++ be_fixed 32 (sig_s sig))).
  { constructor.
    - unfold is_byte. destruct isCompressedKey; lia.
    - apply Forall_app; split; apply is_bytes_be_fixed. }
  rewrite (ParseCompact_decision _ Hbytes). cbv zeta.
  rewrite byteAt_cons_0.
  destruct (slice_code_first c (be_fixed 32 (sig_r sig))
              (be_fixed 32 (sig_s sig))) as [S1 S2];
    try apply len_be_fixed.
  change (1 + 32) with 33 in *. change (1 + 64) with 65 in *.
  rewrite S1, S2.
  pose proof curveN_bound as NB.
  rewrite !be_val_be_fixed_small
    by (change (Z.of_nat 32) with 32; lia).
  assert (HL : len (c :: be_fixed 32 (sig_r sig) ++ be_fixed 32 (sig_s sig))
               = 65).
  { rewrite len_cons, len_app, !len_be_fixed. reflexivity. }
  rewrite HL. cbn [Z.eqb Pos.eqb negb].
  destruct (Z.ltb_spec c 27) as [H1|H1]; [destruct isCompressedKey; lia|].
  destruct (Z.ltb_spec 34 c) as [H2|H2]; [destruct isCompressedKey; lia|].
  cbn [orb].
  destruct (Z.leb_spec curveN (sig_r sig)); [lia|].
  destruct (Z.eqb_spec (sig_r sig) 0); [lia|].
  destruct (Z.leb_spec curveN (sig_s sig)); [lia|].
  destruct (Z.eqb_spec (sig_s sig) 0); [lia|].
  f_equal.
  - f_equal. f_equal. rewrite Ec, Hoff.
    destruct isCompressedKey.
    + replace (v' + (27 + 4) - 27) with (v' + 1 * 4) by lia.
      rewrite Z.mod_add by lia. apply Z.mod_small; lia.
    + replace (v' + (27 + 0) - 27) with v' by lia. apply Z.mod_small; lia.
  - rewrite Ec, Hoff.
    destruct isCompressedKey, (Z.leb_spec 31 (v' + (27 + 4))),
      (Z.leb_spec 31 (v' + (27 + 0))); try reflexivity; lia.
Qed.

Lemma slice_tail_65 (b : list Z) :
  len b = 65 -> slice b 1 65 = slice b 1 33 ++ slice b 33 65.
Proof. intros _. apply slice_split; lia. Qed.

Lemma be_fixed_be_val (l : list Z) :
  is_bytes l -> be_fixed (length l) (be_val l) = l.
Proof.
  induction l as [|b l IH] using rev_ind; intros Hb; [reflexivity|].
  apply Forall_app in Hb. destruct Hb as [Hl Hb'].
  inversion Hb' as [|? ? Hbb _]; subst.
  rewrite length_app. cbn [length]. rewrite Nat.add_1_r. cbn [be_fixed].
  rewrite be_val_app. unfold be_val at 2 4. cbn [fold_left len length].
  change (Z.of_nat 1) with 1. rewrite Z.pow_1_r.
  unfold is_byte in Hbb.
  replace ((be_val l * 256 + (0 * 256 + b)) / 256) with (be_val l)
    by (apply Z.div_unique with (r := b); lia).
  replace ((be_val l * 256 + (0 * 256 + b)) mod 256) with b
    by (apply Z.mod_unique with (q := be_val l); lia).
  rewrite IH by assumption. reflexivity.
Qed.

(** X3.  Exporting a parsed compact signature (recovery code first,
    offset 27 plus 4 when the compressed flag was set) gives back the
    R and S bytes of the input; the header byte comes back unchanged
    when S is at most the half order and with its oddness bit flipped
    when S is over it. *)
Theorem ParseCompact_Export (b : list Z) (sig : Signature) (c : bool) :
  is_bytes b ->
  ParseCompactSignature b = (Ok sig, c) ->
  ExportCompact sig true
    (compactSigMagicOffset + if c then compactSigCompPubKey else 0)
  = (if ModNScalar.IsOverHalfOrder (sig_s sig)
     then 27 + Z.lxor (byteAt b 0 - 27) 1 else byteAt b 0)
    :: slice b 1 65.
Proof.
  intros Hb HP.
  pose proof (ParseCompact_decision b Hb) as D. cbv zeta in D.
  rewrite HP in D.
  destruct (Z.eqb_spec (len b) 65) as [HL|HL]; cbn [negb] in D;
    [|discriminate].
  destruct (Z.ltb_spec (byteAt b 0) 27) as [H1|H1]; cbn [orb] in D;
    [discriminate|].
  destruct (Z.ltb_spec 34 (byteAt b 0)) as [H2|H2]; [discriminate|].
  destruct (curveN <=? be_val (slice b 1 33)); [discriminate|].
  destruct (be_val (slice b 1 33) =? 0); [discriminate|].
  destruct (curveN <=? be_val (slice b 33 65)); [discriminate|].
  destruct (be_val (slice b 33 65) =? 0); [discriminate|].
  injection D as -> ->.
  set (off := compactSigMagicOffset
              + if 31 <=? byteAt b 0 then compactSigCompPubKey else 0).
  destruct (ExportCompact_eq
              (mkSignature (be_val (slice b 1 33)) (be_val (slice b 33 65))
                 ((byteAt b 0 - 27) mod 4)) true off) as (h & Hh & E).
  rewrite E. clear E. cbn [sig_r sig_s sig_v] in *.
  assert (HbR : is_bytes (slice b 1 33)) by now apply is_bytes_slice.
  assert (HbS : is_bytes (slice b 33 65)) by now apply is_bytes_slice.
  assert (HlR : length (slice b 1 33) = 32%nat).
  { pose proof (len_slice b 1 33 ltac:(lia) ltac:(lia)). unfold len in *. lia. }
  assert (HlS : length (slice b 33 65) = 32%nat).
  { pose proof (len_slice b 33 65 ltac:(lia) ltac:(lia)). unfold len in *. lia. }
  rewrite <- HlR at 1. rewrite (be_fixed_be_val _ HbR).
  rewrite <- HlS at 1. rewrite (be_fixed_be_val _ HbS).
  rewrite <- (slice_tail_65 b HL). f_equal.
  rewrite Hh. unfold off.
  change compactSigMagicOffset with 27. change compactSigCompPubKey with 4.
  assert (E : byteAt b 0 = 27 \/ byteAt b 0 = 28 \/ byteAt b 0 = 29 \/
              byteAt b 0 = 30 \/ byteAt b 0 = 31 \/ byteAt b 0 = 32 \/
              byteAt b 0 = 33 \/ byteAt b 0 = 34) by lia.
  destruct (ModNScalar.IsOverHalfOrder (be_val (slice b 33 65)));
    destruct E as [->|[->|[->|[->|[->|[->|[->| ->]]]]]]]; reflexivity.
Qed.

(** ** Export and the two encodings *)

Lemma lowS_eq (s : Z) :
  1 <= s < curveN ->
  (if ModNScalar.IsOverHalfOrder s then ModNScalar.Negate s else s)
  = Z.min s (curveN - s) /\
  1 <= Z.min s (curveN - s) <= curveN / 2.
Proof.
  intros Hs. pose proof curveN_odd as Hodd.
  unfold ModNScalar.IsOverHalfOrder.
  destruct (Z.ltb_spec (curveN / 2) s).
  - rewrite ModN_Negate_pos by lia. lia.
  - lia.
Qed.

Lemma ParseDER_Serialize (sig : Signature) :
  1 <= sig_r sig < curveN -> 1 <= sig_s sig < curveN ->
  ParseDERSignature (Serialize sig)
  = Ok (NewSignature (sig_r sig) (Z.min (sig_s sig) (curveN - sig_s sig))).
Proof.
  intros Hr Hs. pose proof curveN_bound as HN.
  destruct (lowS_eq _ Hs) as [HlowS Hrange].
  destruct (Serialize_encoding sig)
    as (E & Br & R1 & R2 & R3 & Bs & S1 & S2 & S3 & Vr & Vs & Lr & Ls).
  cbv zeta in *. rewrite HlowS in *.
  set (lowS := Z.min (sig_s sig) (curveN - sig_s sig)) in *.
  set (rb := canonTrim (0 :: be_fixed 32 (sig_r sig))) in *.
  set (sb := canonTrim (0 :: be_fixed 32 lowS)) in *.
  rewrite (be_val_be_fixed_small 32) in Vr, Vs
    by (change (Z.of_nat 32) with 32; lia).
  destruct (DEREncoding_fields rb sb)
    as (Hlen & _ & _ & _ & _ & _ & _ & FR & FS).
  cbv zeta in *.
  pose proof (len_pos_nonnil rb R1). pose proof (len_pos_nonnil sb S1).
  assert (Hb : is_bytes (Serialize sig)).
  { rewrite E. unfold DEREncoding.
    assert (is_byte asn1SequenceID /\ is_byte asn1IntegerID /\
            is_byte (4 + len rb + len sb) /\ is_byte (len rb) /\
            is_byte (len sb))
      as (? & ? & ? & ? & ?)
      by (unfold is_byte, asn1SequenceID, asn1IntegerID; lia).
    repeat (apply Forall_app; split); try assumption;
      repeat (constructor; try assumption). }
  assert (Hwf : DERWellFormed (Serialize sig)).
  { exists rb, sb. rewrite E at 1. rewrite E, Hlen.
    unfold minSigLen, maxSigLen.
    repeat (split; [first [reflexivity|assumption|lia]|]). lia. }
  pose proof (ParseDER_decision _ Hb) as Hd.
  apply (DERFirstViolation_None _ Hb) in Hwf as Hnone.
  rewrite Hnone in Hd. rewrite E in Hd at 2 3.
  rewrite FR, FS, Vr, Vs in Hd. exact Hd.
Qed.

(** X4.  For R and S in [1, n-1], [Export] returns R, the low form
    [min(S, n-S)] of S (at most the half order) and the recovery code
    with its oddness bit flipped exactly when S was over the half
    order; these are the two integers that [ParseDERSignature] reads
    back from [Serialize]. *)
Theorem Export_Serialize (sig : Signature) :
  1 <= sig_r sig < curveN -> 1 <= sig_s sig < curveN ->
  Export sig
  = (sig_r sig, Z.min (sig_s sig) (curveN - sig_s sig),
     if curveN / 2 <? sig_s sig then Z.lxor (sig_v sig) 1 else sig_v sig) /\
  1 <= Z.min (sig_s sig) (curveN - sig_s sig) <= curveN / 2 /\
  ParseDERSignature (Serialize sig)
  = Ok (NewSignature (fst (fst (Export sig))) (snd (fst (Export sig)))).
Proof.
  intros Hr Hs. pose proof curveN_bound as HN.
  destruct (lowS_eq _ Hs) as [HlowS Hrange].
  assert (E : Export sig
              = (sig_r sig, Z.min (sig_s sig) (curveN - sig_s sig),
                 if curveN / 2 <? sig_s sig
                 then Z.lxor (sig_v sig) 1 else sig_v sig)).
  { unfold Export. unfold ModNScalar.IsOverHalfOrder in *.
    destruct (curveN / 2 <? sig_s sig); unfold ModNScalar.Bytes.
    - rewrite HlowS.
      rewrite !be_val_be_fixed_small
        by (change (Z.of_nat 32) with 32; lia).
      reflexivity.
    - rewrite <- HlowS.
      rewrite !be_val_be_fixed_small
        by (change (Z.of_nat 32) with 32; lia).
      reflexivity. }
  split; [exact E|]. split; [exact Hrange|].
  rewrite E. cbn [fst snd]. now apply ParseDER_Serialize.
Qed.

(** ** Private keys *)



(** ** Reduction of long scalars *)

Lemma is_bytes_big_Bytes (v : Z) : is_bytes (big_Bytes v).
Proof. apply is_bytes_strip_zeros, is_bytes_be_fixed. Qed.

Lemma len_big_Bytes (v : Z) (w : Z) :
  1 <= w -> Z.abs v < 256 ^ w -> len (big_Bytes v) <= w.
Proof.
  intros Hw Hv. unfold big_Bytes.
  etransitivity; [apply len_strip_zeros|].
  rewrite len_be_fixed.
  destruct (Z.eq_dec (Z.abs v) 0) as [E|E].
  - rewrite E. cbn. lia.
  - assert (Hl : Z.log2 (Z.abs v) < 8 * w).
    { apply Z.log2_lt_pow2; [lia|].
      replace (2 ^ (8 * w)) with (256 ^ w); [assumption|].
      change 256 with (2 ^ 8). rewrite <- Z.pow_mul_r; lia. }
    pose proof (Z.log2_nonneg (Z.abs v)).
    assert (Z.log2 (Z.abs v) / 8 < w)
      by (apply Z.div_lt_upper_bound; lia).
    assert (0 <= Z.log2 (Z.abs v) / 8) by (apply Z.div_pos; lia).
    lia.
Qed.

(** X7.  [moduloReduce] returns at most 32 bytes, leaves a slice of at
    most 32 bytes as it is, and the scalar that [SetByteSlice] reads
    from its result is the whole input reduced modulo the group order
    (a longer input is not truncated). *)
Theorem moduloReduce_spec (k : list Z) :
  is_bytes k ->
  is_bytes (moduloReduce k) /\
  len (moduloReduce k) <= 32 /\
  (len k <= 32 -> moduloReduce k = k) /\
  fst (ModNScalar.SetByteSlice (moduloReduce k)) = be_val k mod curveN.
Proof.
  intros Hb. pose proof curveN_bound as HN. pose proof curveN_pos as HP.
  unfold moduloReduce. change byteSize with 32.
  rewrite Z.gtb_ltb.
  destruct (Z.ltb_spec 32 (len k)) as [H|H].
  - pose proof (Z.mod_pos_bound (be_val k) curveN HP) as Hm.
    assert (L : len (big_Bytes (be_val k mod curveN)) <= 32)
      by (apply len_big_Bytes; lia).
    split; [apply is_bytes_big_Bytes|]. split; [exact L|].
    split; [lia|].
    unfold ModNScalar.SetByteSlice. rewrite low32_short by exact L.
    cbn [fst]. rewrite be_val_big_Bytes, Z.abs_eq by lia.
    apply Z.mod_mod. lia.
  - split; [exact Hb|]. split; [exact H|]. split; [reflexivity|].
    unfold ModNScalar.SetByteSlice. now rewrite low32_short.
Qed.

(** ** The size of the two halves of a scalar *)

Lemma endomorphism_det :
  endomorphismA1 * endomorphismB2 - endomorphismA2 * endomorphismB1 = curveN.
Proof. reflexivity. Qed.

Lemma splitK_values (k : list Z) :
  exists k1 k2,
    splitK k = (big_Bytes k1, big_Bytes k2, big_Sign k1, big_Sign k2) /\
    - endomorphismA2 < k1 < endomorphismA1 /\
    endomorphismB1 - endomorphismB2 < k2 <= 0.
Proof.
  unfold splitK. cbv zeta.
  set (K := be_val k).
  set (c1 := endomorphismB2 * K / curveN).
  set (c2 := endomorphismB1 * K / curveN).
  eexists. eexists. split; [reflexivity|].
  pose proof curveN_pos as HP.
  pose proof (Z.div_mod (endomorphismB2 * K) curveN ltac:(lia)) as D1.
  pose proof (Z.mod_pos_bound (endomorphismB2 * K) curveN HP) as M1.
  pose proof (Z.div_mod (endomorphismB1 * K) curveN ltac:(lia)) as D2.
  pose proof (Z.mod_pos_bound (endomorphismB1 * K) curveN HP) as M2.
  fold c1 in D1. fold c2 in D2.
  set (f1 := (endomorphismB2 * K) mod curveN) in *.
  set (f2 := (endomorphismB1 * K) mod curveN) in *.
  pose proof endomorphism_det as Det.
  assert (E1 : (K - c1 * endomorphismA1 + c2 * endomorphismA2) * curveN
               = endomorphismA1 * f1 - endomorphismA2 * f2).
  { transitivity (K * curveN - endomorphismA1 * (curveN * c1)
                  + endomorphismA2 * (curveN * c2)); [ring|].
    replace (curveN * c1) with (endomorphismB2 * K - f1) by lia.
    replace (curveN * c2) with (endomorphismB1 * K - f2) by lia.
    rewrite <- Det. ring. }
  assert (E2 : (c2 * endomorphismB2 - c1 * endomorphismB1) * curveN
               = endomorphismB1 * f1 - endomorphismB2 * f2).
  { transitivity (endomorphismB2 * (curveN * c2)
                  - endomorphismB1 * (curveN * c1)); [ring|].
    replace (curveN * c1) with (endomorphismB2 * K - f1) by lia.
    replace (curveN * c2) with (endomorphismB1 * K - f2) by lia.
    ring. }
  assert (A1 : 0 < endomorphismA1) by reflexivity.
  assert (A2 : 0 < endomorphismA2) by reflexivity.
  assert (B1 : endomorphismB1 < 0) by reflexivity.
  assert (B2 : 0 < endomorphismB2) by reflexivity.
  assert (P1 : 0 <= endomorphismA1 * f1)
    by (apply Z.mul_nonneg_nonneg; lia).
  assert (P2 : 0 <= endomorphismA2 * f2)
    by (apply Z.mul_nonneg_nonneg; lia).
  assert (P3 : endomorphismA1 * f1 < endomorphismA1 * curveN)
    by (apply Z.mul_lt_mono_pos_l; lia).
  assert (P4 : endomorphismA2 * f2 < endomorphismA2 * curveN)
    by (apply Z.mul_lt_mono_pos_l; lia).
  assert (P5 : 0 <= endomorphismB2 * f2)
    by (apply Z.mul_nonneg_nonneg; lia).
  assert (P6 : endomorphismB2 * f2 < endomorphismB2 * curveN)
    by (apply Z.mul_lt_mono_pos_l; lia).
  assert (P7 : endomorphismB1 * f1 <= 0)
    by (apply Z.mul_nonpos_nonneg; lia).
  assert (P8 : endomorphismB1 * curveN < endomorphismB1 * f1)
    by (apply Z.mul_lt_mono_neg_l; lia).
  split; split.
  - apply (Z.mul_lt_mono_pos_r curveN); [exact HP|]. rewrite E1.
    rewrite Z.mul_opp_l. lia.
  - apply (Z.mul_lt_mono_pos_r curveN); [exact HP|]. rewrite E1. lia.
  - apply (Z.mul_lt_mono_pos_r curveN); [exact HP|]. rewrite E2.
    rewrite Z.mul_sub_distr_r. lia.
  - apply (Z.mul_le_mono_pos_r _ _ curveN); [exact HP|]. rewrite E2. lia.
Qed.

(** X8.  For every input slice, the two halves returned by [splitK]
    are smaller than 2^129 in absolute value, hence at most 17 bytes
    long (about half the length of the group order), and the second
    half is never positive. *)
Theorem splitK_bounds (k : list Z) :
  let '(k1, k2, signK1, signK2) := splitK k in
  is_bytes k1 /\ is_bytes k2 /\
  be_val k1 < 2 ^ 129 /\ be_val k2 < 2 ^ 129 /\
  len k1 <= 17 /\ len k2 <= 17 /\
  (signK1 = -1 \/ signK1 = 0 \/ signK1 = 1) /\
  (signK2 = -1 \/ signK2 = 0).
Proof.
  destruct (splitK_values k) as (k1 & k2 & -> & H1 & H2).
  assert (A1 : endomorphismA1 < 2 ^ 129) by reflexivity.
  assert (A2 : endomorphismA2 < 2 ^ 129) by reflexivity.
  assert (B : - 2 ^ 129 < endomorphismB1 - endomorphismB2) by reflexivity.
  assert (P : 2 ^ 129 < 256 ^ 17) by reflexivity.
  split; [apply is_bytes_big_Bytes|]. split; [apply is_bytes_big_Bytes|].
  rewrite !be_val_big_Bytes.
  split; [lia|]. split; [lia|].
  split; [apply len_big_Bytes; lia|]. split; [apply len_big_Bytes; lia|].
  unfold big_Sign. split; [|lia].
  destruct (Z.sgn_spec k1) as [[_ ->]|[[_ ->]|[_ ->]]]; tauto.
Qed.

(** ** Slice indices of the scalar multiplication *)

Lemma naf_total (k : list Z) :
  is_bytes k -> (length (strip_zeros k) <= 32)%nat ->
  exists r,
    naf k = Ok r /\
    len (nafScalar_Neg r) = len (nafScalar_Pos r) /\
    len (nafScalar_Pos r) <= len (strip_zeros k) + 1.
Proof.
  intros Hk HL. unfold naf. cbv zeta.
  set (k' := strip_zeros k) in *.
  assert (Hk' : is_bytes k') by now apply is_bytes_strip_zeros.
  destruct (nafLoop_spec k' Hk' (length k') (repeat 0 33) (repeat 0 33) 0)
    as (ps & ns & c & Hrun & Lps & Lns & _ & _ & Hc & _);
    try (rewrite ?repeat_length; lia).
  rewrite Hrun. cbn [bind].
  set (rest := skipn (S (length k')) (repeat 0 33)) in *.
  change (firstn 1 (repeat 0 33)) with [0].
  cbn [app]. rewrite store_head. cbn [bind].
  assert (Hc256 : (1 - c) mod 256 = 1 - c)
    by (destruct Hc as [-> | ->]; reflexivity).
  assert (He : (len k' + 1) mod 256 = len k' + 1)
    by (apply Z.mod_small; unfold len; lia).
  eexists. split; [reflexivity|].
  unfold nafScalar_Pos, nafScalar_Neg.
  cbn [naf_pos naf_neg naf_start naf_end].
  rewrite Hc256, He.
  assert (Lps' : len ps = len k') by (unfold len; now rewrite Lps).
  assert (Lns' : len ns = len k') by (unfold len; now rewrite Lns).
  destruct Hc as [-> | ->].
  - change (1 - 0) with 1.
    pose proof (slice_app [0] ps rest 1 (len k' + 1) eq_refl ltac:(lia))
      as S1.
    pose proof (slice_app [0] ns rest 1 (len k' + 1) eq_refl ltac:(lia))
      as S2.
    cbn [app] in S1, S2. rewrite S1, S2. lia.
  - change (1 - 1) with 0.
    pose proof (slice_app [] (1 :: ps) rest 0 (len k' + 1) eq_refl
                  ltac:(rewrite len_cons; lia)) as S1.
    pose proof (slice_app [] (0 :: ns) rest 0 (len k' + 1) eq_refl
                  ltac:(rewrite len_cons; lia)) as S2.
    cbn [app] in S1, S2. rewrite S1, S2. rewrite !len_cons. lia.
Qed.

Lemma nafBytes_total (n : nat) :
  forall (i m k1Len k2Len : Z) (a1 b1 a2 b2 : list Z)
         (p1 p1Neg p2 p2Neg q : JacobianPoint),
  len a1 = k1Len -> len b1 = k1Len -> len a2 = k2Len -> len b2 = k2Len ->
  0 <= i -> i + Z.of_nat n = m ->
  exists q',
    nafBytes n i m k1Len k2Len a1 b1 a2 b2 p1 p1Neg p2 p2Neg q = Ok q'.
Proof.
  induction n as [|n IH]; intros i m k1Len k2Len a1 b1 a2 b2
    p1 p1Neg p2 p2Neg q L1 L2 L3 L4 Hi Hm.
  - eexists. reflexivity.
  - cbn [nafBytes].
    assert (E1 : exists b,
      (if i >=? m - k1Len
       then bp <- index a1 (i - (m - k1Len)) ;;
            bn <- index b1 (i - (m - k1Len)) ;; Ok (bp, bn)
       else Ok (0, 0)) = Ok b).
    { rewrite Z.geb_leb. destruct (Z.leb_spec (m - k1Len) i).
      - rewrite !index_byteAt by lia. cbn [bind]. eexists. reflexivity.
      - eexists. reflexivity. }
    assert (E2 : exists b,
      (if i >=? m - k2Len
       then bp <- index a2 (i - (m - k2Len)) ;;
            bn <- index b2 (i - (m - k2Len)) ;; Ok (bp, bn)
       else Ok (0, 0)) = Ok b).
    { rewrite Z.geb_leb. destruct (Z.leb_spec (m - k2Len) i).
      - rewrite !index_byteAt by lia. cbn [bind]. eexists. reflexivity.
      - eexists. reflexivity. }
    destruct E1 as [x1 ->]. destruct E2 as [x2 ->]. cbn [bind].
    apply IH; try assumption; lia.
Qed.

Lemma ScalarMultNonConst_ok (k : ModNScalar.t) (point : JacobianPoint) :
  exists Q, ScalarMultNonConst k point = Ok Q.
Proof.
  unfold ScalarMultNonConst. cbv zeta.
  destruct (splitK_values (ModNScalar.Bytes k)) as (k1 & k2 & -> & H1 & H2).
  assert (A1 : endomorphismA1 < 256 ^ 17) by reflexivity.
  assert (A2 : endomorphismA2 < 256 ^ 17) by reflexivity.
  assert (B : - 256 ^ 17 < endomorphismB1 - endomorphismB2) by reflexivity.
  assert (N1 : exists r, naf (big_Bytes k1) = Ok r /\
                 len (nafScalar_Neg r) = len (nafScalar_Pos r)).
  { destruct (naf_total (big_Bytes k1)) as (r & Hr & L & _).
    - apply is_bytes_big_Bytes.
    - pose proof (len_strip_zeros (big_Bytes k1)).
      pose proof (len_big_Bytes k1 17 ltac:(lia) ltac:(lia)).
      unfold len in *. lia.
    - eauto. }
  assert (N2 : exists r, naf (big_Bytes k2) = Ok r /\
                 len (nafScalar_Neg r) = len (nafScalar_Pos r)).
  { destruct (naf_total (big_Bytes k2)) as (r & Hr & L & _).
    - apply is_bytes_big_Bytes.
    - pose proof (len_strip_zeros (big_Bytes k2)).
      pose proof (len_big_Bytes k2 17 ltac:(lia) ltac:(lia)).
      unfold len in *. lia.
    - eauto. }
  destruct N1 as (r1 & -> & L1). destruct N2 as (r2 & -> & L2).
  destruct (big_Sign k1 =? -1); destruct (big_Sign k2 =? -1);
    cbn [bind]; apply nafBytes_total; try assumption; try reflexivity;
    try lia;
    pose proof (len_nonneg (nafScalar_Pos r1));
    pose proof (len_nonneg (nafScalar_Pos r2));
    destruct (Z.ltb_spec (len (nafScalar_Pos r1)) (len (nafScalar_Pos r2)));
    lia.
Qed.

(** X9.  [ScalarMultNonConst] returns a point for every scalar and every
    point: no index into the NAF slices is ever out of range; hence
    [Verify] and [GenerateSharedSecret] never panic either. *)
Theorem ScalarMultNonConst_total :
  (forall k point, exists Q, ScalarMultNonConst k point = Ok Q) /\
  (forall sig hash pubKey, exists b, Verify sig hash pubKey = Ok b) /\
  (forall privkey pubkey,
     exists secret, GenerateSharedSecret privkey pubkey = Ok secret /\
                    len secret = 32 /\ is_bytes secret).
Proof.
  split; [exact ScalarMultNonConst_ok|]. split.
  - intros sig hash pubKey. unfold Verify.
    destruct (ModNScalar.IsZero (sig_r sig) || ModNScalar.IsZero (sig_s sig));
      [eexists; reflexivity|]. cbv zeta.
    destruct (ScalarMultNonConst_ok
                (ModNScalar.Mul2 (sig_r sig)
                   (ModNScalar.InverseValNonConst (sig_s sig)))
                (AsJacobian pubKey)) as [Q ->].
    generalize (ScalarBaseMultNonConst
                  (ModNScalar.Mul2 (fst (ModNScalar.SetByteSlice hash))
                     (ModNScalar.InverseValNonConst (sig_s sig)))).
    intros u1G. cbn [bind]. eexists. reflexivity.
  - intros privkey pubkey. unfold GenerateSharedSecret. cbv zeta.
    destruct (ScalarMultNonConst_ok (priv_key privkey) (AsJacobian pubkey))
      as [Q ->].
    cbn [bind]. eexists. split; [reflexivity|].
    split; [apply len_be_fixed|apply is_bytes_be_fixed].
Qed.

(** ** Presence of the recovery code *)

Lemma recoverPoint_not_panic (sig : Signature) : recoverPoint sig <> Panic.
Proof.
  unfold recoverPoint. cbv zeta.
  destruct (negb (Z.land (sig_v sig) pubKeyRecoveryCodeOverflowBit =? 0)).
  - destruct (FieldVal.IsGtOrEqPrimeMinusOrder
                (modNScalarToField (sig_r sig))); cbn [failif bind];
      [discriminate|].
    destruct (DecompressY _ _) as [y [|]]; cbn [negb failif bind];
      discriminate.
  - cbn [bind].
    destruct (DecompressY _ _) as [y [|]]; cbn [negb failif bind];
      discriminate.
Qed.

Lemma recoverTail_not_panic (u1G : JacobianPoint) (r : result JacobianPoint) :
  (exists Q, r = Ok Q) ->
  (u2X <- r ;;
   let Q := AddNonConst u1G u2X in
   _ <- failif (isInfinity Q) ErrPointNotOnCurve ;;
   let Q := ToAffine Q in
   Ok (NewPublicKey (X Q) (Y Q))) <> Panic.
Proof.
  intros [Q ->]. cbn [bind]. cbv zeta.
  destruct (isInfinity (AddNonConst u1G Q)); cbn [failif bind]; discriminate.
Qed.

Lemma RecoverPublicKey_no_panic (sig : Signature) (hash : list Z) :
  sig_v sig <> 0xff -> RecoverPublicKey sig hash <> Panic.
Proof.
  intros E. unfold RecoverPublicKey.
  destruct (Z.eqb_spec (sig_v sig) 0xff) as [E'|_]; [contradiction|].
  pose proof (recoverPoint_not_panic sig) as NP.
  destruct (recoverPoint sig) as [Xp|e|]; [|discriminate|contradiction].
  cbn [bind].
  apply recoverTail_not_panic. apply ScalarMultNonConst_ok.
Qed.

Lemma RecoverPublicKey_panic (sig : Signature) (hash : list Z) :
  RecoverPublicKey sig hash = Panic <-> sig_v sig = 0xff.
Proof.
  split.
  - intros H. destruct (Z.eq_dec (sig_v sig) 0xff) as [E|E]; [exact E|].
    exfalso. exact (RecoverPublicKey_no_panic sig hash E H).
  - intros E. unfold RecoverPublicKey. rewrite E. reflexivity.
Qed.

(** X5.  [RecoverPublicKey] panics exactly on a signature without a
    recovery code (0xff).  A signature returned by
    [ParseDERSignature] has none, so [RecoveryCode] and
    [RecoverPublicKey] panic on it; one returned by
    [ParseCompactSignature] has a code in [0, 3], so they do not. *)
Theorem RecoveryCode_presence :
  (forall sig hash, RecoverPublicKey sig hash = Panic <-> sig_v sig = 0xff) /\
  (forall b sig,
     is_bytes b -> ParseDERSignature b = Ok sig ->
     RecoveryCode sig = Panic /\
     forall hash, RecoverPublicKey sig hash = Panic) /\
  (forall b sig c,
     is_bytes b -> ParseCompactSignature b = (Ok sig, c) ->
     0 <= sig_v sig <= 3 /\ RecoveryCode sig = Ok (sig_v sig) /\
     forall hash, RecoverPublicKey sig hash <> Panic).
Proof.
  split; [exact RecoverPublicKey_panic|]. split.
  - intros b sig Hb HP. rewrite (ParseDER_decision b Hb) in HP.
    destruct (DERFirstViolation b); [discriminate|].
    injection HP as <-. split; [reflexivity|].
    intros hash. now apply RecoverPublicKey_panic.
  - intros b sig c Hb HP.
    pose proof (ParseCompact_decision b Hb) as D. cbv zeta in D.
    rewrite HP in D.
    destruct (negb (len b =? 65)); [discriminate|].
    destruct ((byteAt b 0 <? 27) || (34 <? byteAt b 0)); [discriminate|].
    destruct (curveN <=? be_val (slice b 1 33)); [discriminate|].
    destruct (be_val (slice b 1 33) =? 0); [discriminate|].
    destruct (curveN <=? be_val (slice b 33 65)); [discriminate|].
    destruct (be_val (slice b 33 65) =? 0); [discriminate|].
    injection D as -> _. cbn [sig_v].
    pose proof (Z.mod_pos_bound (byteAt b 0 - 27) 4 ltac:(lia)) as Hm.
    split; [lia|]. split.
    + unfold RecoveryCode. cbn [sig_v].
      destruct (Z.eqb_spec ((byteAt b 0 - 27) mod 4) 255); [lia|reflexivity].
    + intros hash H. apply RecoverPublicKey_panic in H. cbn [sig_v] in H. lia.
Qed.

(** ** Conversion to affine coordinates *)

Lemma pow_mod_pos_0 (e : positive) (m : Z) : pow_mod_pos 0 e m = 0.
Proof.
  induction e as [e IH|e IH|]; cbn [pow_mod_pos].
  - rewrite IH. cbv zeta. rewrite Z.mul_0_r. apply Zmod_0_l.
  - rewrite IH. cbv zeta. apply Zmod_0_l.
  - apply Zmod_0_l.
Qed.

Lemma pow_mod_pos_1 (e : positive) (m : Z) :
  1 < m -> pow_mod_pos 1 e m = 1.
Proof.
  intros Hm. induction e as [e IH|e IH|]; cbn [pow_mod_pos].
  - rewrite IH. cbv zeta. change (1 * 1) with 1.
    rewrite Z.mul_1_r, Z.mod_mod by lia. apply Z.mod_1_l. lia.
  - rewrite IH. cbv zeta. change (1 * 1) with 1. apply Z.mod_1_l. lia.
  - apply Z.mod_1_l. lia.
Qed.

Lemma Inverse_0 : FieldVal.Inverse 0 = 0.
Proof. unfold FieldVal.Inverse. cbn [pow_mod Z.sub Z.add Z.opp fieldPrime Z.pos_sub]. apply pow_mod_pos_0. Qed.

Lemma Inverse_1 : FieldVal.Inverse 1 = 1.
Proof.
  unfold FieldVal.Inverse.
  cbn [pow_mod Z.sub Z.add Z.opp fieldPrime Z.pos_sub].
  apply pow_mod_pos_1. reflexivity.
Qed.

Lemma ToAffine_Z1 (x y : Z) :
  ToAffine (MakeJacobianPoint x y 1)
  = MakeJacobianPoint (x mod fieldPrime) (y mod fieldPrime) 1.
Proof.
  unfold ToAffine. cbn [X Y Z']. unfold FieldVal.Set_.
  rewrite Inverse_1.
  unfold FieldVal.SquareVal, FieldVal.Mul, FieldVal.Mul2, FieldVal.Normalize,
    FieldVal.SetInt.
  pose proof fieldPrime_pos.
  change (1 * 1) with 1. rewrite !(Z.mod_1_l fieldPrime) by (now vm_compute).
  change (1 * 1) with 1. rewrite !(Z.mod_1_l fieldPrime) by (now vm_compute).
  rewrite !Z.mul_1_r, !Z.mod_mod by lia. reflexivity.
Qed.

(** X10.  [ToAffine] is idempotent; its result has [Z = 1] and
    coordinates in [0, p); it only reduces the coordinates of a point
    that already has [Z = 1]; and a point with [Z = 0] becomes
    [(0, 0, 1)], which the infinity test of the package still
    recognizes. *)
Theorem ToAffine_idempotent (P : JacobianPoint) :
  ToAffine (ToAffine P) = ToAffine P /\
  Z' (ToAffine P) = 1 /\
  0 <= X (ToAffine P) < fieldPrime /\ 0 <= Y (ToAffine P) < fieldPrime /\
  (Z' P = 1 ->
   ToAffine P = MakeJacobianPoint (X P mod fieldPrime) (Y P mod fieldPrime) 1) /\
  (Z' P = 0 ->
   ToAffine P = MakeJacobianPoint 0 0 1 /\ isInfinity (ToAffine P) = true).
Proof.
  pose proof (ToAffine_normalized P) as [HX HY].
  assert (HZ : Z' (ToAffine P) = 1) by reflexivity.
  split; [|split; [exact HZ|split; [exact HX|split; [exact HY|split]]]].
  - destruct (ToAffine P) as [x y z] eqn:E. cbn [X Y Z'] in *. subst z.
    rewrite ToAffine_Z1. now rewrite !Z.mod_small.
  - intros E. destruct P as [x y z]. cbn [X Y Z'] in *. subst z.
    apply ToAffine_Z1.
  - intros E. destruct P as [x y z]. cbn [X Y Z'] in *. subst z.
    assert (T : ToAffine (MakeJacobianPoint x y 0) = MakeJacobianPoint 0 0 1).
    { unfold ToAffine. cbn [X Y Z']. unfold FieldVal.Set_.
      rewrite Inverse_0.
      unfold FieldVal.SquareVal, FieldVal.Mul, FieldVal.Mul2,
        FieldVal.Normalize, FieldVal.SetInt.
      change ((0 * 0) mod fieldPrime) with 0.
      rewrite !Z.mul_0_r.
      change (0 mod fieldPrime) with 0. reflexivity. }
    rewrite T. split; reflexivity.
Qed.

(** ** Instances *)

Lemma ExportCompact_fields_witness :
  ModNScalar.wf 1 /\ ModNScalar.wf (curveN - 1) /\
  ModNScalar.IsOverHalfOrder (curveN - 1) = true /\
  index (ExportCompact (mkSignature 1 (curveN - 1) 0) true 27) 0 = Ok 28 /\
  be_val (slice (ExportCompact (mkSignature 1 (curveN - 1) 0) true 27) 33 65)
  = curveN - 1.
Proof.
  assert (H1 : ModNScalar.wf 1)
    by (unfold ModNScalar.wf; vm_compute; split; [discriminate|reflexivity]).
  assert (H2 : ModNScalar.wf (curveN - 1))
    by (unfold ModNScalar.wf; vm_compute; split; [discriminate|reflexivity]).
  assert (H3 : ModNScalar.IsOverHalfOrder (curveN - 1) = true)
    by (vm_compute; reflexivity).
  split; [exact H1|]. split; [exact H2|]. split; [exact H3|].
  destruct (ExportCompact_fields (mkSignature 1 (curveN - 1) 0) true 27 H1 H2)
    as (_ & _ & _ & _ & HS & Hhigh).
  split; [|exact HS].
  apply Hhigh; [exact H3|]. cbn [sig_v]. lia.
Defined.

Lemma DER_roundtrip_witness :
  1 <= 1 < curveN /\ 1 <= curveN - 1 < curveN /\
  ParseDERSignature (Serialize (mkSignature 1 (curveN - 1) 0))
  = Ok (NewSignature 1 1).
Proof.
  assert (H1 : 1 <= 1 < curveN) by (vm_compute; split; [discriminate|reflexivity]).
  assert (H2 : 1 <= curveN - 1 < curveN)
    by (vm_compute; split; [discriminate|reflexivity]).
  split; [exact H1|]. split; [exact H2|].
  apply (DER_roundtrip (mkSignature 1 (curveN - 1) 0) H1 H2).
Defined.

Lemma ParseDERSignature_spec_witness :
  is_bytes sigREqualsOrder /\
  ParseDERSignature sigREqualsOrder = Err ErrSigRTooBig.
Proof.
  assert (Hb : is_bytes sigREqualsOrder)
    by (apply is_bytesb_sound; vm_compute; reflexivity).
  split; [exact Hb|].
  destruct (ParseDERSignature_spec sigREqualsOrder Hb) as (_ & _ & H).
  apply (H (0 :: be_fixed 32 curveN)
           (be_fixed 32
              0x181522ec8eca07de4860a4acdd12909d831cc56cbbac4622082221a8768d1d09));
    try (vm_compute; reflexivity); try discriminate.
Defined.

Lemma splitK_congruence_witness :
  0 <= be_val [1] < curveN /\
  (let '(k1, k2, signK1, signK2) := splitK [1] in
   (signK1 * be_val k1 + signK2 * be_val k2 * endomorphismLambda) mod curveN
   = be_val [1]).
Proof.
  assert (H : 0 <= be_val [1] < curveN)
    by (vm_compute; split; [discriminate|reflexivity]).
  split; [exact H|].
  pose proof (splitK_congruence [1]) as T.
  destruct (splitK [1]) as [[[k1 k2] s1] s2].
  exact (proj2 T H).
Defined.

Lemma naf_spec_witness :
  is_bytes [0xab] /\ 0 <= be_val [0xab] < 2 ^ 256 /\
  exists r, naf [0xab] = Ok r /\
            be_val (nafScalar_Pos r) - be_val (nafScalar_Neg r)
            = be_val [0xab].
Proof.
  assert (H1 : is_bytes [0xab])
    by (apply is_bytesb_sound; vm_compute; reflexivity).
  assert (H2 : 0 <= be_val [0xab] < 2 ^ 256)
    by (vm_compute; split; [discriminate|reflexivity]).
  split; [exact H1|]. split; [exact H2|].
  destruct (naf_spec [0xab] H1 H2) as (r & Hr & _ & _ & Hv & _).
  exists r. split; [exact Hr|exact Hv].
Defined.

Lemma sign_invariants_witness :
  sign 1 1 (repeat 0 32) = Some (mkSignature curveGx curveGx 0) /\
  1 <= curveGx <= curveN / 2.
Proof.
  assert (H : sign 1 1 (repeat 0 32) = Some (mkSignature curveGx curveGx 0))
    by (vm_compute; reflexivity).
  split; [exact H|].
  destruct (sign_invariants 1 1 (repeat 0 32)) as (_ & T).
  destruct (T _ H) as (_ & _ & _ & Hs & _).
  exact Hs.
Defined.

Lemma AddNonConst_identity_witness :
  isInfinity infinityPoint = true /\
  AddNonConst infinityPoint basePoint = basePoint.
Proof.
  assert (H : isInfinity infinityPoint = true) by reflexivity.
  split; [exact H|].
  exact (proj1 AddNonConst_identity infinityPoint basePoint H).
Defined.

Lemma ParseCompactSignature_spec_witness :
  is_bytes (27 :: be_fixed 32 1 ++ be_fixed 32 2) /\
  ParseCompactSignature (27 :: be_fixed 32 1 ++ be_fixed 32 2)
  = (Ok (mkSignature 1 2 0), false).
Proof.
  assert (Hb : is_bytes (27 :: be_fixed 32 1 ++ be_fixed 32 2))
    by (apply is_bytesb_sound; vm_compute; reflexivity).
  split; [exact Hb|].
  destruct (ParseCompactSignature_spec _ Hb) as (_ & _ & _ & H).
  apply H. vm_compute.
  repeat split; try discriminate; reflexivity.
Defined.

Lemma ExportCompact_Parse_witness :
  1 <= 1 < curveN /\ 1 <= curveN - 1 < curveN /\ 0 <= 2 <= 3 /\
  ParseCompactSignature (ExportCompact (mkSignature 1 (curveN - 1) 2) true 31)
  = (Ok (mkSignature 1 (curveN - 1) 3), true).
Proof.
  assert (H1 : 1 <= 1 < curveN) by (vm_compute; split; [discriminate|reflexivity]).
  assert (H2 : 1 <= curveN - 1 < curveN)
    by (vm_compute; split; [discriminate|reflexivity]).
  assert (H3 : 0 <= 2 <= 3) by lia.
  split; [exact H1|]. split; [exact H2|]. split; [exact H3|].
  exact (ExportCompact_Parse (mkSignature 1 (curveN - 1) 2) true H1 H2 H3).
Defined.

Lemma ParseCompact_Export_witness :
  is_bytes (32 :: be_fixed 32 1 ++ be_fixed 32 (curveN - 1)) /\
  ParseCompactSignature (32 :: be_fixed 32 1 ++ be_fixed 32 (curveN - 1))
  = (Ok (mkSignature 1 (curveN - 1) 1), true) /\
  ExportCompact (mkSignature 1 (curveN - 1) 1) true 31
  = 31 :: be_fixed 32 1 ++ be_fixed 32 (curveN - 1).
Proof.
  assert (Hb : is_bytes (32 :: be_fixed 32 1 ++ be_fixed 32 (curveN - 1)))
    by (apply is_bytesb_sound; vm_compute; reflexivity).
  assert (HP : ParseCompactSignature
                 (32 :: be_fixed 32 1 ++ be_fixed 32 (curveN - 1))
               = (Ok (mkSignature 1 (curveN - 1) 1), true))
    by (vm_compute; reflexivity).
  split; [exact Hb|]. split; [exact HP|].
  exact (ParseCompact_Export _ _ _ Hb HP).
Defined.

Lemma Export_Serialize_witness :
  1 <= 1 < curveN /\ 1 <= curveN - 1 < curveN /\
  Export (mkSignature 1 (curveN - 1) 0) = (1, 1, 1).
Proof.
  assert (H1 : 1 <= 1 < curveN) by (vm_compute; split; [discriminate|reflexivity]).
  assert (H2 : 1 <= curveN - 1 < curveN)
    by (vm_compute; split; [discriminate|reflexivity]).
  split; [exact H1|]. split; [exact H2|].
  exact (proj1 (Export_Serialize (mkSignature 1 (curveN - 1) 0) H1 H2)).
Defined.

Lemma RecoveryCode_presence_witness :
  is_bytes (Serialize (mkSignature 1 1 0)) /\
  ParseDERSignature (Serialize (mkSignature 1 1 0)) = Ok (NewSignature 1 1) /\
  RecoveryCode (NewSignature 1 1) = Panic.
Proof.
  assert (Hb : is_bytes (Serialize (mkSignature 1 1 0)))
    by (apply is_bytesb_sound; vm_compute; reflexivity).
  assert (HP : ParseDERSignature (Serialize (mkSignature 1 1 0))
               = Ok (NewSignature 1 1)) by (vm_compute; reflexivity).
  split; [exact Hb|]. split; [exact HP|].
  exact (proj1 (proj1 (proj2 RecoveryCode_presence) _ _ Hb HP)).
Defined.


Lemma moduloReduce_spec_witness :
  is_bytes (repeat 255 33) /\
  fst (ModNScalar.SetByteSlice (moduloReduce (repeat 255 33)))
  = be_val (repeat 255 33) mod curveN.
Proof.
  assert (Hb : is_bytes (repeat 255 33))
    by (apply is_bytesb_sound; vm_compute; reflexivity).
  split; [exact Hb|].
  exact (proj2 (proj2 (proj2 (moduloReduce_spec _ Hb)))).
Defined.

Lemma ToAffine_idempotent_witness :
  Z' basePoint = 1 /\ ToAffine basePoint = basePoint.
Proof.
  assert (H : Z' basePoint = 1) by reflexivity.
  split; [exact H|].
  destruct (ToAffine_idempotent basePoint) as (_ & _ & _ & _ & T & _).
  rewrite (T H). vm_compute. reflexivity.
Defined.
